(** * levelq: a durable FIFO queue over an ordered key-value store

    Shallow embedding of [queue.go] (package [levelq]) and a verification
    of its index management: the identifier/key codec, enqueue, dequeue,
    the bounds-checked lookup, [Length], recovery ([init]) and the
    life cycle ([OpenQueue], [Close], [Drop]).

    Conventions of the embedding:
    - a [uint64] is a [Z]; every addition and subtraction is wrapped
      modulo [2^64] explicitly ([add64], [sub64]); [%] is [umod], which
      panics on a zero divisor as Go does;
    - a [[]byte] is a [list Byte.byte]; Go's [nil] slice is [[]];
    - a Go [error] is an [option error], [None] being [nil];
    - methods on [*Queue] take the queue and return the updated queue;
    - everything outside the [Queue] struct (the LevelDB directory on
      disk, the outcome of each I/O call) lives in a [World] that is
      threaded through a small state monad [M]; a run-time panic ends
      the run with [Panics];
    - the [sync.RWMutex] is not modelled: the development is about
      sequential runs of the operations;
    - [EnqueueObject] and [DequeueObject] put a [gob] encoding in front
      of [enqueue] and behind [dequeue]; the encoder and the decoder are
      parameters of their embedding. *)

From Stdlib Require Import ZArith Lia List String.
From Stdlib Require Strings.Byte.
From stdpp Require Import base option list gmap strings sorting.

Local Open Scope Z_scope.

(** ** Bytes *)

Abbreviation byte := Byte.byte.
Abbreviation bytes := (list Byte.byte).

#[global] Instance byte_eq_dec : EqDecision byte := Byte.byte_eq_dec.

#[global] Instance byte_countable : Countable byte :=
  inj_countable Byte.to_N Byte.of_N Byte.of_to_N.

(** Go's conversion [byte(v)] of a [uint64]: the low eight bits. *)
Definition byte_of_Z (z : Z) : byte :=
  default Byte.x00 (Byte.of_N (Z.to_N (z mod 256))).

(** Go's conversion [uint64(b)] of a byte. *)
Definition Z_of_byte (b : byte) : Z := Z.of_N (Byte.to_N b).

(** ** Unsigned 64-bit arithmetic *)

Definition MaxUint64 : Z := 2 ^ 64 - 1.

Definition wrap64 (z : Z) : Z := z mod 2 ^ 64.
Definition add64 (a b : Z) : Z := wrap64 (a + b).
Definition sub64 (a b : Z) : Z := wrap64 (a - b).

(** ** Errors *)

(** The four sentinel errors of the package, followed by the errors that
    come from outside it: [leveldb.ErrNotFound], [leveldb.ErrClosed], and
    any other error value of the store or of the operating system. *)
Inductive error : Type :=
| ErrOutOfBounds
| ErrDBClosed
| ErrEmpty
| ErrFull
| ErrNotFound
| ErrClosed
| ErrIO (msg : string).

#[global] Instance error_eq_dec : EqDecision error.
Proof. solve_decision. Defined.

(** ** The world outside the queue *)

(** [disk] maps a directory to the LevelDB table stored there.  [faults]
    schedules the outcome of the coming I/O calls, one entry per call:
    [Some msg] makes the call fail with [ErrIO msg], [None] lets it go
    through; once the schedule is used up no call fails. *)
Record World : Type := mkWorld {
  disk : gmap string (gmap bytes bytes);
  faults : list (option string)
}.

Inductive exec (A : Type) : Type :=
| Returns (a : A)
| Panics.
Arguments Returns {A} a.
Arguments Panics {A}.

Definition M (A : Type) : Type := World -> exec (A * World).

Definition ret {A} (a : A) : M A := fun w => Returns (a, w).

Definition bind {A B} (m : M A) (k : A -> M B) : M B :=
  fun w => match m w with
           | Returns (a, w') => k a w'
           | Panics => Panics
           end.

Definition panic {A} : M A := fun _ => Panics.

Declare Scope go_scope.
Delimit Scope go_scope with go.
Notation "'let*' p ':=' m 'in' k" :=
  (bind m (fun x => match x with p => k end))
  (at level 10, p pattern, m at level 100, k at level 200,
   only parsing) : go_scope.
Local Open Scope go_scope.

(** The outcome of the next I/O call. *)
Definition io : M (option error) :=
  fun w => match faults w with
           | [] => Returns (None, w)
           | f :: fs => Returns (ErrIO <$> f, mkWorld (disk w) fs)
           end.

(** [a % b] on [uint64]: integer division by zero is a run-time panic. *)
Definition umod (a b : Z) : M Z :=
  if b =? 0 then panic else ret (a mod b).

(** ** encoding/binary, big endian *)

Module BigEndian.

Definition PutUint64 (v : Z) : bytes :=
  [ byte_of_Z (Z.shiftr v 56); byte_of_Z (Z.shiftr v 48);
    byte_of_Z (Z.shiftr v 40); byte_of_Z (Z.shiftr v 32);
    byte_of_Z (Z.shiftr v 24); byte_of_Z (Z.shiftr v 16);
    byte_of_Z (Z.shiftr v 8);  byte_of_Z v ].

(** [Uint64] reads the first eight bytes; a shorter slice fails the
    bounds check [_ = b[7]] and panics. *)
Definition Uint64 (b : bytes) : M Z :=
  match b with
  | b0 :: b1 :: b2 :: b3 :: b4 :: b5 :: b6 :: b7 :: _ =>
      ret (Z.lor (Z_of_byte b7)
          (Z.lor (Z.shiftl (Z_of_byte b6) 8)
          (Z.lor (Z.shiftl (Z_of_byte b5) 16)
          (Z.lor (Z.shiftl (Z_of_byte b4) 24)
          (Z.lor (Z.shiftl (Z_of_byte b3) 32)
          (Z.lor (Z.shiftl (Z_of_byte b2) 40)
          (Z.lor (Z.shiftl (Z_of_byte b1) 48)
                 (Z.shiftl (Z_of_byte b0) 56))))))))
  | _ => panic
  end.

End BigEndian.

(** ** The store: goleveldb as the queue uses it *)

(** The order of the keys of a table: [bytes.Compare], lexicographic on
    unsigned bytes. *)
Fixpoint bytes_leb (a b : bytes) : bool :=
  match a, b with
  | [], _ => true
  | _ :: _, [] => false
  | x :: a', y :: b' =>
      if (Byte.to_N x <? Byte.to_N y)%N then true
      else if (Byte.to_N x =? Byte.to_N y)%N then bytes_leb a' b'
      else false
  end.

Definition bytes_le (a b : bytes) : Prop := bytes_leb a b = true.

#[global] Instance bytes_le_dec a b : Decision (bytes_le a b).
Proof. unfold bytes_le. apply _. Defined.

Module leveldb.

(** A handle [*leveldb.DB]: the directory it was opened on and whether
    [Close] was called on it.  A [nil] handle is [None]; calling a
    method on it dereferences [nil] and panics. *)
Record DB : Type := mkDB { dir : string; closed : bool }.

Definition zeroDB : DB := mkDB "" false.

Definition contents (d : string) (w : World) : gmap bytes bytes :=
  default ∅ (disk w !! d).

(** The world in which the table of directory [d] is [s]. *)
Definition store (d : string) (s : gmap bytes bytes) (w : World) : World :=
  mkWorld (<[d := s]> (disk w)) (faults w).

Definition update (d : string) (f : gmap bytes bytes -> gmap bytes bytes) : M unit :=
  fun w => Returns (tt, store d (f (contents d w)) w).

(** [leveldb.OpenFile(path, nil)]: opens the table at [path], creating an
    empty one when there is none. *)
Definition OpenFile (path : string) : M (option DB * option error) :=
  let* e := io in
  match e with
  | Some e => ret (None, Some e)
  | None => let* _ := update path (fun s => s) in ret (Some (mkDB path false), None)
  end.

Definition Put (db : option DB) (key value : bytes) : M (option error) :=
  match db with
  | None => panic
  | Some d =>
      if closed d then ret (Some ErrClosed) else
      let* e := io in
      match e with
      | Some e => ret (Some e)
      | None => let* _ := update (dir d) (insert key value) in ret None
      end
  end.

Definition Get (db : option DB) (key : bytes) : M (bytes * option error) :=
  match db with
  | None => panic
  | Some d =>
      if closed d then ret ([], Some ErrClosed) else
      let* e := io in
      match e with
      | Some e => ret ([], Some e)
      | None => fun w =>
          match contents (dir d) w !! key with
          | Some v => Returns ((v, None), w)
          | None => Returns (([], Some ErrNotFound), w)
          end
      end
  end.

(** Deleting a key that is not there is not an error. *)
Definition Delete (db : option DB) (key : bytes) : M (option error) :=
  match db with
  | None => panic
  | Some d =>
      if closed d then ret (Some ErrClosed) else
      let* e := io in
      match e with
      | Some e => ret (Some e)
      | None => let* _ := update (dir d) (delete key) in ret None
      end
  end.

(** [Close] returns the handle as it is afterwards. *)
Definition Close (db : option DB) : M (option DB * option error) :=
  match db with
  | None => panic
  | Some d =>
      if closed d then ret (Some d, Some ErrClosed) else
      let* e := io in
      match e with
      | Some e => ret (Some d, Some e)
      | None => ret (Some (mkDB (dir d) true), None)
      end
  end.

(** An iterator over the whole table: its keys in ascending order, the
    key it stands on, and the error it has met. *)
Record Iterator : Type := mkIter {
  keys : list bytes;
  cur : option bytes;
  iter_err : option error
}.

Definition sorted_keys (s : gmap bytes bytes) : list bytes :=
  merge_sort bytes_le (elements (dom s)).

Definition NewIterator (db : option DB) : M Iterator :=
  match db with
  | None => panic
  | Some d =>
      if closed d then ret (mkIter [] None (Some ErrClosed)) else
      fun w => Returns (mkIter (sorted_keys (contents (dir d) w)) None None, w)
  end.

(** Shared by [First] and [Last]: seek to [target]; the result says
    whether the iterator now stands on a key. *)
Definition seek (it : Iterator) (target : option bytes) : M (Iterator * bool) :=
  match iter_err it with
  | Some _ => ret (it, false)
  | None =>
      let* e := io in
      match e with
      | Some e => ret (mkIter (keys it) None (Some e), false)
      | None =>
          match target with
          | Some k => ret (mkIter (keys it) (Some k) None, true)
          | None => ret (mkIter (keys it) None None, false)
          end
      end
  end.

Definition First (it : Iterator) : M (Iterator * bool) :=
  seek it (List.head (keys it)).

Definition Last (it : Iterator) : M (Iterator * bool) :=
  seek it (list.last (keys it)).

(** [Key] is [nil] when the iterator stands on no key. *)
Definition Key (it : Iterator) : bytes := default [] (cur it).

Definition Error (it : Iterator) : option error := iter_err it.

Definition Release (it : Iterator) : M unit := ret tt.

End leveldb.

Module os.

(** [os.RemoveAll(path)]: removes the directory and what it holds; a
    path that does not exist is not an error. *)
Definition RemoveAll (path : string) : M (option error) :=
  let* e := io in
  match e with
  | Some e => ret (Some e)
  | None => fun w => Returns (None, mkWorld (delete path (disk w)) (faults w))
  end.

End os.

(** ** The queue *)

(** [MaxQueueSize] as the package initialises it. *)
Definition DefaultMaxQueueSize : Z := Z.shiftr MaxUint64 2.

Record Queue : Type := mkQueue {
  DataDir : string;
  db : option leveldb.DB;
  head : Z;
  tail : Z;
  isOpen : bool
}.

Definition set_db (d : option leveldb.DB) (q : Queue) : Queue :=
  mkQueue (DataDir q) d (head q) (tail q) (isOpen q).
Definition set_head (h : Z) (q : Queue) : Queue :=
  mkQueue (DataDir q) (db q) h (tail q) (isOpen q).
Definition set_tail (t : Z) (q : Queue) : Queue :=
  mkQueue (DataDir q) (db q) (head q) t (isOpen q).
Definition set_isOpen (b : bool) (q : Queue) : Queue :=
  mkQueue (DataDir q) (db q) (head q) (tail q) b.

(** [idToKey]: the 8-byte big-endian key of an identifier. *)
Definition idToKey (id : Z) : bytes := BigEndian.PutUint64 id.

(** [keyToID]: the identifier of a key. *)
Definition keyToID (key : bytes) : M Z := BigEndian.Uint64 key.

(** [init] recovers [head] and [tail] from the keys of the store. *)
Definition init (q : Queue) : M (Queue * option error) :=
  let* iter := leveldb.NewIterator (db q) in
  let* (iter, ok) := leveldb.First iter in
  let* q := (if ok : bool
             then let* id := keyToID (leveldb.Key iter) in
                  ret (set_head (sub64 id 1) q)
             else ret q) in
  let* (iter, ok) := leveldb.Last iter in
  let* q := (if ok : bool
             then let* id := keyToID (leveldb.Key iter) in
                  ret (set_tail id q)
             else ret q) in
  let err := leveldb.Error iter in
  let* _ := leveldb.Release iter in
  ret (q, err).

Definition OpenQueue (dataDir : string) : M (Queue * option error) :=
  let q := mkQueue dataDir (Some leveldb.zeroDB) 0 0 false in
  let* (d, err) := leveldb.OpenFile dataDir in
  let q := set_db d q in
  match err with
  | Some e => ret (q, Some e)
  | None =>
      let q := set_isOpen true q in
      init q
  end.

(** [Close] closes the store and resets the queue. *)
Definition Close (q : Queue) : M (Queue * option error) :=
  if negb (isOpen q) then ret (q, None) else
  let* (d, err) := leveldb.Close (db q) in
  let q := set_db d q in
  match err with
  | Some e => ret (q, Some e)
  | None =>
      let q := set_head 0 q in
      let q := set_tail 0 q in
      let q := set_isOpen false q in
      ret (q, None)
  end.

(** [Drop] closes the queue and deletes its directory. *)
Definition Drop (q : Queue) : M (Queue * option error) :=
  let* (q, err) := Close q in
  match err with
  | Some e => ret (q, Some e)
  | None => let* err := os.RemoveAll (DataDir q) in ret (q, err)
  end.

Section Ring.

(** The current value of the package variable [MaxQueueSize]. *)
Variable MaxQueueSize : Z.

Definition Length (q : Queue) : M Z :=
  umod (sub64 (add64 MaxQueueSize (tail q)) (head q)) MaxQueueSize.

(** The store access that ends [getValueByID] (lines 243-251). *)
Definition getValue (q : Queue) (id : Z) : M (bytes * option error) :=
  let key := idToKey id in
  let* (value, err) := leveldb.Get (db q) key in
  match err with
  | Some e => ret ([], Some e)
  | None => ret (value, None)
  end.

(** [getValueByID]: the bounds-checked lookup.  Each branch of the check
    that does not return falls through to the store access. *)
Definition getValueByID (q : Queue) (id : Z) : M (bytes * option error) :=
  let* len := Length q in
  if len =? 0 then ret ([], Some ErrEmpty)
  else if head q <? tail q then
    if (id <=? head q) || (tail q <? id)
    then ret ([], Some ErrOutOfBounds)
    else getValue q id
  else if tail q <? head q then
    if (tail q <? id) && (id <=? head q)
    then ret ([], Some ErrOutOfBounds)
    else getValue q id
  else getValue q id.

Definition enqueue (q : Queue) (value : bytes) : M (Queue * option error) :=
  if negb (isOpen q) then ret (q, Some ErrDBClosed) else
  let* nextID := umod (add64 (tail q) 1) MaxQueueSize in
  if nextID =? head q then ret (q, Some ErrFull) else
  let key := idToKey nextID in
  let* err := leveldb.Put (db q) key value in
  match err with
  | Some e => ret (q, Some e)
  | None =>
      let q := set_tail nextID q in
      ret (q, None)
  end.

Definition dequeue (q : Queue) : M (Queue * bytes * option error) :=
  if negb (isOpen q) then ret (q, [], Some ErrDBClosed) else
  let* nextID := umod (add64 (head q) 1) MaxQueueSize in
  let* (value, err) := getValueByID q nextID in
  match err with
  | Some e => ret (q, [], Some e)
  | None =>
      let key := idToKey nextID in
      let* err := leveldb.Delete (db q) key in
      match err with
      | Some e => ret (q, [], Some e)
      | None =>
          let q := set_head nextID q in
          ret (q, value, None)
      end
  end.

End Ring.

(** ** Runs of the operations

    The scenarios of the test-suite, as programs: enqueue a list of
    payloads one after the other, dequeue [n] times in a row. *)

Fixpoint enqueue_all (MaxQueueSize : Z) (q : Queue) (vs : list bytes)
  : M (Queue * list (option error)) :=
  match vs with
  | [] => ret (q, [])
  | v :: vs' =>
      let* (q, e) := enqueue MaxQueueSize q v in
      let* (q, es) := enqueue_all MaxQueueSize q vs' in
      ret (q, e :: es)
  end.

Fixpoint dequeue_n (MaxQueueSize : Z) (q : Queue) (n : nat)
  : M (Queue * list (bytes * option error)) :=
  match n with
  | O => ret (q, [])
  | S n' =>
      let* (q, v, e) := dequeue MaxQueueSize q in
      let* (q, rs) := dequeue_n MaxQueueSize q n' in
      ret (q, (v, e) :: rs)
  end.

(** Any interleaving of the two operations. *)
Inductive op : Type :=
| Enq (v : bytes)
| Deq.

Fixpoint run (MaxQueueSize : Z) (q : Queue) (ops : list op)
  : M (Queue * list (option error)) :=
  match ops with
  | [] => ret (q, [])
  | Enq v :: ops' =>
      let* (q, e) := enqueue MaxQueueSize q v in
      let* (q, es) := run MaxQueueSize q ops' in
      ret (q, e :: es)
  | Deq :: ops' =>
      let* (q, _, e) := dequeue MaxQueueSize q in
      let* (q, es) := run MaxQueueSize q ops' in
      ret (q, e :: es)
  end.

(** Successful enqueues minus successful dequeues of a run, from its
    operations and the errors they returned. *)
Fixpoint net (ops : list op) (es : list (option error)) : Z :=
  match ops, es with
  | o :: ops', e :: es' =>
      match e, o with
      | None, Enq _ => 1
      | None, Deq => -1
      | Some _, _ => 0
      end + net ops' es'
  | _, _ => 0
  end.

(** The table after the payloads [vs] were stored under the identifiers
    that follow [t]. *)
Fixpoint put_all (t : Z) (vs : list bytes) (s : gmap bytes bytes)
  : gmap bytes bytes :=
  match vs with
  | [] => s
  | v :: vs' => put_all (t + 1) vs' (<[idToKey (t + 1) := v]> s)
  end.

(** A queue that is open on the table of directory [d]. *)
Definition opened (q : Queue) (d : string) : Prop :=
  isOpen q = true /\ db q = Some (leveldb.mkDB d false).

(** [head] and [tail] are identifiers of the ring [[0, MaxQueueSize)]. *)
Definition in_ring (MaxQueueSize : Z) (q : Queue) : Prop :=
  0 <= head q < MaxQueueSize /\ 0 <= tail q < MaxQueueSize.

(** The identifiers that pass the checks of [getValueByID]: the queue is
    not empty, and [id] is in [(head, tail]] when [head < tail], outside
    [(tail, head]] when [tail < head]. *)
Definition valid_id (q : Queue) (id : Z) : Prop :=
  head q <> tail q /\
  (head q < tail q -> head q < id <= tail q) /\
  (tail q < head q -> ~ (tail q < id <= head q)).

(** An open queue holds a handle, so no method dereferences [nil]. *)
Definition has_handle (q : Queue) : Prop :=
  isOpen q = true -> exists d, db q = Some d.

(** ** Concrete queues and worlds *)

Definition payload_a : bytes := [Byte.x61].
Definition payload_b : bytes := [Byte.x62].
Definition payload_c : bytes := [Byte.x63].

(** Nothing on disk, no fault scheduled. *)
Definition quiet_world : World := mkWorld ∅ [].

(** A queue open on directory ["q"] with the given counters. *)
Definition open_queue (h t : Z) : Queue :=
  mkQueue "q" (Some (leveldb.mkDB "q" false)) h t true.

(** A queue on directory ["q"] after [Close]. *)
Definition closed_queue : Queue :=
  mkQueue "q" (Some (leveldb.mkDB "q" true)) 0 0 false.

(** Directory ["q"] holds the entries 3 and 4 of an earlier run. *)
Definition restart_world : World :=
  mkWorld {[ "q" := {[ idToKey 3 := payload_a; idToKey 4 := payload_b ]} ]} [].

(** Directory ["q"] holds an entry under identifier 0 and one under
    identifier [2^63]. *)
Definition stale_world : World :=
  mkWorld {[ "q" := {[ idToKey 0 := payload_a;
                        idToKey (2 ^ 63) := payload_b ]} ]} [].

(** ** A list as the reference queue

    What a bounded FIFO queue answers: [Enq] appends unless the queue
    holds [cap] payloads already, [Deq] takes the first payload. *)

Definition fifo_step (cap : Z) (l : list bytes) (o : op)
  : list bytes * (bytes * option error) :=
  match o with
  | Enq v =>
      if Z.of_nat (length l) <? cap
      then (l ++ [v], ([], None))
      else (l, ([], Some ErrFull))
  | Deq =>
      match l with
      | [] => (l, ([], Some ErrEmpty))
      | v :: l' => (l', (v, None))
      end
  end.

Fixpoint fifo_run (cap : Z) (l : list bytes) (ops : list op)
  : list bytes * list (bytes * option error) :=
  match ops with
  | [] => (l, [])
  | o :: ops' =>
      let (l1, r) := fifo_step cap l o in
      let (l2, rs) := fifo_run cap l1 ops' in
      (l2, r :: rs)
  end.

(** A run of the code that keeps what each operation returned; an
    enqueue returns no payload. *)
Fixpoint run_trace (MaxQueueSize : Z) (q : Queue) (ops : list op)
  : M (Queue * list (bytes * option error)) :=
  match ops with
  | [] => ret (q, [])
  | Enq v :: ops' =>
      let* (q, e) := enqueue MaxQueueSize q v in
      let* (q, rs) := run_trace MaxQueueSize q ops' in
      ret (q, ([], e) :: rs)
  | Deq :: ops' =>
      let* (q, v, e) := dequeue MaxQueueSize q in
      let* (q, rs) := run_trace MaxQueueSize q ops' in
      ret (q, (v, e) :: rs)
  end.

(** The queue [q], open on directory [d] of a world with no fault
    pending, holds the payloads [l]: the table of [d] has exactly the
    entries of [l], the i-th under the i-th identifier after [head] along
    the ring, and [tail] is the last of these identifiers. *)
Definition holds (MaxQueueSize : Z) (d : string) (q : Queue) (w : World)
           (l : list bytes) : Prop :=
  opened q d /\ in_ring MaxQueueSize q /\ faults w = [] /\
  (MaxQueueSize + tail q - head q) mod MaxQueueSize = Z.of_nat (length l) /\
  forall k v,
    leveldb.contents d w !! k = Some v <->
    exists i, l !! i = Some v /\
              k = idToKey ((head q + 1 + Z.of_nat i) mod MaxQueueSize).

(** The number of enqueues among the operations of a run. *)
Fixpoint enqueues (ops : list op) : Z :=
  match ops with
  | [] => 0
  | Enq _ :: ops' => 1 + enqueues ops'
  | Deq :: ops' => enqueues ops'
  end.

(** ** The object variants

    [EnqueueObject] and [DequeueObject] put [encoding/gob] in front of
    [enqueue] and behind [dequeue].  The encoding itself is outside the
    package: [gobEncode value] stands for what
    [gob.NewEncoder(&buffer).Encode(value)] leaves in the buffer and the
    error it returns, [gobDecode value target] for what
    [gob.NewDecoder(bytes.NewReader(value)).Decode(valueIface)] leaves in
    the variable [valueIface] points to, and the error it returns. *)

Section Gob.

Variable MaxQueueSize : Z.
Variable T : Type.
Variable gobEncode : T -> bytes * option error.
Variable gobDecode : bytes -> T -> T * option error.

Definition EnqueueObject (q : Queue) (value : T) : M (Queue * option error) :=
  let (buffer, err) := gobEncode value in
  match err with
  | Some e => ret (q, Some e)
  | None => enqueue MaxQueueSize q buffer
  end.

(** The second component is the target variable after the call. *)
Definition DequeueObject (q : Queue) (valueIface : T)
  : M (Queue * T * option error) :=
  let* (q, value, err) := dequeue MaxQueueSize q in
  match err with
  | Some e => ret (q, valueIface, Some e)
  | None =>
      let (valueIface, err) := gobDecode value valueIface in
      match err with
      | Some e => ret (q, valueIface, Some e)
      | None => ret (q, valueIface, None)
      end
  end.

End Gob.

(** The big-endian bytes of [v], [n] of them; [idToKey] is [be_bytes 8]. *)
Fixpoint be_bytes (n : nat) (v : Z) : bytes :=
  match n with
  | O => []
  | S n' => byte_of_Z (Z.shiftr v (8 * Z.of_nat n')) :: be_bytes n' v
  end.

(** ** More concrete inputs *)

(** Nothing on disk; the next I/O call fails. *)
Definition failing_world : World := mkWorld ∅ [Some "I/O error"].

(** A codec that writes a byte string as it is, and one whose decoder
    rejects everything. *)
Definition raw_encode (x : bytes) : bytes * option error := (x, None).
Definition raw_decode (b : bytes) (target : bytes) : bytes * option error :=
  (b, None).
Definition bad_decode (b : bytes) (target : bytes) : bytes * option error :=
  (target, Some (ErrIO "gob: bad data")).

(** * Verification *)

Arguments idToKey : simpl never.
Arguments keyToID : simpl never.
Arguments sub64 : simpl never.
Arguments add64 : simpl never.
Arguments Z.modulo : simpl never.
Arguments Z.pow : simpl never.

(** ** The codec *)

Lemma Z_of_byte_range (b : byte) : 0 <= Z_of_byte b < 256.
Proof.
  unfold Z_of_byte. pose proof (Byte.to_N_bounded b). lia.
Qed.

Lemma Z_of_byte_of_Z (z : Z) : Z_of_byte (byte_of_Z z) = z mod 256.
Proof.
  unfold Z_of_byte, byte_of_Z.
  assert (Hr : 0 <= z mod 256 < 256) by (apply Z.mod_pos_bound; lia).
  destruct (Byte.of_N (Z.to_N (z mod 256))) as [b|] eqn:E; simpl.
  - apply Byte.to_of_N in E. rewrite E. lia.
  - apply Byte.of_N_None_iff in E. lia.
Qed.

Ltac decide_ltb :=
  repeat match goal with
         | |- context [?a <? ?b] =>
             first [ rewrite (proj2 (Z.ltb_lt a b)) by lia
                   | rewrite (proj2 (Z.ltb_ge a b)) by lia ]
         end.

Ltac bits_at :=
  decide_ltb; simpl;
  repeat first [ rewrite Z.shiftr_spec by lia
               | rewrite (Z.testbit_neg_r _ (_ - _)) by lia ];
  simpl; rewrite ?orb_false_r; try (f_equal; lia); try reflexivity.

Lemma Uint64_PutUint64 (v : Z) (w : World) :
  BigEndian.Uint64 (BigEndian.PutUint64 v) w = Returns (v mod 2 ^ 64, w).
Proof.
  unfold BigEndian.Uint64, BigEndian.PutUint64, ret.
  rewrite !Z_of_byte_of_Z. do 2 f_equal.
  change 256 with (2 ^ 8).
  apply Z.bits_inj'. intros n Hn.
  rewrite !Z.lor_spec, !Z.shiftl_spec by lia.
  rewrite !Z.testbit_mod_pow2 by lia.
  assert (Hc : n < 8 \/ 8 <= n < 16 \/ 16 <= n < 24 \/ 24 <= n < 32 \/
               32 <= n < 40 \/ 40 <= n < 48 \/ 48 <= n < 56 \/
               56 <= n < 64 \/ 64 <= n) by lia.
  destruct Hc as [H|[H|[H|[H|[H|[H|[H|[H|H]]]]]]]]; bits_at.
Qed.

(** [keyToID] is the inverse of [idToKey] on [uint64]. *)
Lemma keyToID_idToKey (id : Z) (w : World) :
  0 <= id <= MaxUint64 -> keyToID (idToKey id) w = Returns (id, w).
Proof.
  intros H. unfold keyToID, idToKey. rewrite Uint64_PutUint64.
  unfold MaxUint64 in H. rewrite Z.mod_small by lia. reflexivity.
Qed.

Lemma idToKey_inj (a b : Z) :
  0 <= a <= MaxUint64 -> 0 <= b <= MaxUint64 ->
  idToKey a = idToKey b -> a = b.
Proof.
  intros Ha Hb E.
  pose proof (keyToID_idToKey a (mkWorld ∅ []) Ha) as Ea.
  pose proof (keyToID_idToKey b (mkWorld ∅ []) Hb) as Eb.
  rewrite E in Ea. congruence.
Qed.

Lemma idToKey_length (id : Z) : length (idToKey id) = 8%nat.
Proof. reflexivity. Qed.

Lemma lor_bound (n a b : Z) :
  0 <= n -> 0 <= a < 2 ^ n -> 0 <= b < 2 ^ n -> 0 <= Z.lor a b < 2 ^ n.
Proof.
  intros Hn Ha Hb.
  assert (H0 : 0 <= Z.lor a b) by (apply Z.lor_nonneg; lia).
  split; [exact H0|].
  destruct (Z.eq_dec (Z.lor a b) 0) as [E|E]; [rewrite E; lia|].
  apply Z.log2_lt_pow2; [lia|]. rewrite Z.log2_lor by lia.
  apply Z.max_lub_lt.
  - destruct (Z.eq_dec a 0) as [->|]; [|apply Z.log2_lt_pow2; lia].
    simpl. destruct (Z.eq_dec n 0) as [->|]; [|lia].
    assert (b = 0) by (change (2 ^ 0) with 1 in Hb; lia). subst b.
    contradiction.
  - destruct (Z.eq_dec b 0) as [->|]; [|apply Z.log2_lt_pow2; lia].
    simpl. destruct (Z.eq_dec n 0) as [->|]; [|lia].
    assert (a = 0) by (change (2 ^ 0) with 1 in Ha; lia). subst a.
    contradiction.
Qed.

Lemma shiftl_byte_bound (b : byte) (k : Z) :
  0 <= k <= 56 -> 0 <= Z.shiftl (Z_of_byte b) k < 2 ^ 64.
Proof.
  intros Hk. pose proof (Z_of_byte_range b) as Hb.
  rewrite Z.shiftl_mul_pow2 by lia.
  assert (Hp : 0 < 2 ^ k) by (apply Z.pow_pos_nonneg; lia).
  assert (Hm : 2 ^ k <= 2 ^ 56) by (apply Z.pow_le_mono_r; lia).
  change (2 ^ 56) with 72057594037927936 in Hm.
  change (2 ^ 64) with 18446744073709551616. nia.
Qed.

(** A decoded identifier is a [uint64]. *)
Lemma keyToID_range (k : bytes) (id : Z) (w w' : World) :
  keyToID k w = Returns (id, w') -> 0 <= id <= MaxUint64.
Proof.
  unfold keyToID, BigEndian.Uint64.
  destruct k as [|b0 [|b1 [|b2 [|b3 [|b4 [|b5 [|b6 [|b7 ?]]]]]]]];
    try discriminate.
  unfold ret. intros H. injection H as <- _.
  pose proof (Z_of_byte_range b7) as H7.
  enough (0 <= Z.lor (Z_of_byte b7)
          (Z.lor (Z.shiftl (Z_of_byte b6) 8)
          (Z.lor (Z.shiftl (Z_of_byte b5) 16)
          (Z.lor (Z.shiftl (Z_of_byte b4) 24)
          (Z.lor (Z.shiftl (Z_of_byte b3) 32)
          (Z.lor (Z.shiftl (Z_of_byte b2) 40)
          (Z.lor (Z.shiftl (Z_of_byte b1) 48)
                 (Z.shiftl (Z_of_byte b0) 56))))))) < 2 ^ 64)
    by (unfold MaxUint64; lia).
  repeat (apply lor_bound; [lia| |]);
    try (apply shiftl_byte_bound; lia).
  change (2 ^ 64) with 18446744073709551616. lia.
Qed.

(** ** The order of the keys *)

Lemma bytes_le_refl (a : bytes) : bytes_le a a.
Proof.
  unfold bytes_le. induction a as [|x a IH]; simpl; [reflexivity|].
  rewrite N.ltb_irrefl, N.eqb_refl. exact IH.
Qed.

#[global] Instance bytes_le_trans : Transitive bytes_le.
Proof.
  unfold bytes_le. intros a. induction a as [|x a IH]; intros b c Hab Hbc.
  - reflexivity.
  - destruct b as [|y b]; [discriminate|].
    destruct c as [|z c]; [discriminate|]. simpl in *.
    destruct (N.ltb_spec (Byte.to_N x) (Byte.to_N y)),
             (N.ltb_spec (Byte.to_N y) (Byte.to_N z)),
             (N.ltb_spec (Byte.to_N x) (Byte.to_N z)); try reflexivity; try lia.
    + destruct (N.eqb_spec (Byte.to_N y) (Byte.to_N z)); [lia|discriminate].
    + destruct (N.eqb_spec (Byte.to_N x) (Byte.to_N y)); [lia|discriminate].
    + destruct (N.eqb_spec (Byte.to_N x) (Byte.to_N y)); [|discriminate].
      destruct (N.eqb_spec (Byte.to_N y) (Byte.to_N z)); [|discriminate].
      destruct (N.eqb_spec (Byte.to_N x) (Byte.to_N z)); [|lia].
      eapply IH; eassumption.
Qed.

#[global] Instance bytes_le_total : Total bytes_le.
Proof.
  unfold bytes_le. intros a. induction a as [|x a IH]; intros b.
  - left. reflexivity.
  - destruct b as [|y b]; [right; reflexivity|]. simpl.
    destruct (N.ltb_spec (Byte.to_N x) (Byte.to_N y)),
             (N.ltb_spec (Byte.to_N y) (Byte.to_N x)); auto; try lia.
    destruct (N.eqb_spec (Byte.to_N x) (Byte.to_N y)),
             (N.eqb_spec (Byte.to_N y) (Byte.to_N x)); try lia.
    apply IH.
Qed.

Lemma sorted_keys_elem_of (s : gmap bytes bytes) (k : bytes) :
  k ∈ leveldb.sorted_keys s <-> k ∈ dom s.
Proof.
  unfold leveldb.sorted_keys.
  rewrite (merge_sort_Permutation bytes_le (elements (dom s))).
  apply elem_of_elements.
Qed.

Lemma sorted_keys_sorted (s : gmap bytes bytes) :
  StronglySorted bytes_le (leveldb.sorted_keys s).
Proof. apply StronglySorted_merge_sort; apply _. Qed.

Lemma sorted_keys_nil (s : gmap bytes bytes) :
  leveldb.sorted_keys s = [] <-> s = ∅.
Proof.
  split.
  - intros E. apply map_empty. intros k.
    apply not_elem_of_dom. rewrite <- sorted_keys_elem_of, E.
    apply not_elem_of_nil.
  - intros ->. reflexivity.
Qed.

(** The first key of the iterator is the least key of the table. *)
Lemma sorted_keys_first (s : gmap bytes bytes) (k : bytes) :
  List.head (leveldb.sorted_keys s) = Some k ->
  k ∈ dom s /\ forall k', k' ∈ dom s -> bytes_le k k'.
Proof.
  intros E. pose proof (sorted_keys_sorted s) as Hs.
  destruct (leveldb.sorted_keys s) as [|k0 l] eqn:El; [discriminate|].
  injection E as ->. split.
  - apply sorted_keys_elem_of. rewrite El. apply elem_of_cons. auto.
  - intros k' Hk'. apply sorted_keys_elem_of in Hk'. rewrite El in Hk'.
    apply elem_of_cons in Hk' as [->|Hk']; [apply bytes_le_refl|].
    apply StronglySorted_inv in Hs as [_ Hall].
    rewrite Forall_forall in Hall. apply Hall, Hk'.
Qed.

(** The last key of the iterator is the greatest key of the table. *)
Lemma sorted_keys_last (s : gmap bytes bytes) (k : bytes) :
  list.last (leveldb.sorted_keys s) = Some k ->
  k ∈ dom s /\ forall k', k' ∈ dom s -> bytes_le k' k.
Proof.
  intros E. pose proof (sorted_keys_sorted s) as Hs.
  apply last_Some in E as [l El]. split.
  - apply sorted_keys_elem_of. rewrite El. apply elem_of_app. right.
    apply elem_of_cons. auto.
  - intros k' Hk'. apply sorted_keys_elem_of in Hk'. rewrite El in Hk', Hs.
    apply elem_of_app in Hk' as [Hk'|Hk'].
    + eapply StronglySorted_app_1_elem_of; [exact Hs|exact Hk'|].
      apply elem_of_cons. auto.
    + apply elem_of_cons in Hk' as [->|Hk']; [apply bytes_le_refl|].
      apply not_elem_of_nil in Hk'. contradiction.
Qed.

(** ** The store *)

Lemma contents_store (d : string) (s : gmap bytes bytes) (w : World) :
  leveldb.contents d (leveldb.store d s w) = s.
Proof.
  unfold leveldb.contents, leveldb.store. simpl.
  rewrite lookup_insert_eq. reflexivity.
Qed.


Lemma contents_singleton (d : string) (s : gmap bytes bytes)
      (fs : list (option string)) :
  leveldb.contents d (mkWorld {[ d := s ]} fs) = s.
Proof.
  unfold leveldb.contents. simpl. rewrite lookup_singleton_eq. reflexivity.
Qed.

Lemma contents_nothing (d : string) (fs : list (option string)) :
  leveldb.contents d (mkWorld ∅ fs) = ∅.
Proof.
  unfold leveldb.contents. simpl. rewrite lookup_empty. reflexivity.
Qed.

Lemma faults_store (d : string) (s : gmap bytes bytes) (w : World) :
  faults (leveldb.store d s w) = faults w.
Proof. reflexivity. Qed.

Lemma io_quiet (w : World) : faults w = [] -> io w = Returns (None, w).
Proof. intros E. unfold io. rewrite E. reflexivity. Qed.

Lemma io_faults (w w' : World) (e : option error) :
  io w = Returns (e, w') ->
  disk w' = disk w /\ (faults w = [] -> faults w' = []) /\
  e <> Some ErrOutOfBounds.
Proof.
  unfold io. destruct (faults w) as [|f fs] eqn:E; intros H;
    injection H as <- <-.
  - rewrite E. auto.
  - simpl. repeat split; [discriminate|]. destruct f; discriminate.
Qed.

Lemma contents_io (d : string) (w w' : World) (e : option error) :
  io w = Returns (e, w') -> leveldb.contents d w' = leveldb.contents d w.
Proof.
  intros H. apply io_faults in H as [H _]. unfold leveldb.contents.
  rewrite H. reflexivity.
Qed.

(** ** Ring arithmetic *)

Lemma DefaultMaxQueueSize_eq : DefaultMaxQueueSize = 2 ^ 62 - 1.
Proof. reflexivity. Qed.

Lemma umod_nonzero (a b : Z) (w : World) :
  b <> 0 -> umod a b w = Returns (a mod b, w).
Proof.
  intros Hb. unfold umod. destruct (Z.eqb_spec b 0); [contradiction|].
  reflexivity.
Qed.

Lemma ring_distance (N h t : Z) :
  0 <= h < N -> 0 <= t < N ->
  (N + t - h) mod N = if h <=? t then t - h else N + t - h.
Proof.
  intros Hh Ht. destruct (Z.leb_spec h t).
  - replace (N + t - h) with (t - h + 1 * N) by lia.
    rewrite Z.mod_add by lia. apply Z.mod_small. lia.
  - apply Z.mod_small. lia.
Qed.

Lemma ring_next (N h : Z) :
  0 <= h < N -> (h + 1) mod N = if h + 1 <? N then h + 1 else 0.
Proof.
  intros Hh. destruct (Z.ltb_spec (h + 1) N).
  - apply Z.mod_small. lia.
  - replace (h + 1) with N by lia. apply Z.mod_same. lia.
Qed.

Section RingFacts.

Variable N : Z.
Hypothesis HN : 0 < N <= DefaultMaxQueueSize.

Lemma add64_small (a b : Z) : 0 <= a <= N -> 0 <= b <= N -> add64 a b = a + b.
Proof.
  intros Ha Hb. unfold add64, wrap64. rewrite DefaultMaxQueueSize_eq in HN.
  apply Z.mod_small. lia.
Qed.

Lemma Length_in_ring (q : Queue) (w : World) :
  in_ring N q -> Length N q w = Returns ((N + tail q - head q) mod N, w).
Proof.
  intros [Hh Ht]. unfold Length. rewrite umod_nonzero by lia.
  rewrite add64_small by lia. unfold sub64, wrap64.
  rewrite DefaultMaxQueueSize_eq in HN.
  rewrite (Z.mod_small (N + tail q - head q)) by lia. reflexivity.
Qed.

Lemma Length_zero_iff (q : Queue) :
  in_ring N q -> ((N + tail q - head q) mod N = 0 <-> head q = tail q).
Proof.
  intros [Hh Ht]. rewrite ring_distance by lia.
  destruct (Z.leb_spec (head q) (tail q)); lia.
Qed.

End RingFacts.

(** ** The lookup *)

Lemma getValue_spec (q : Queue) (id : Z) (d : string) (w w' : World)
      (e : option error) :
  db q = Some (leveldb.mkDB d false) ->
  io w = Returns (e, w') ->
  getValue q id w =
  Returns (match e with
           | Some e => ([], Some e)
           | None => match leveldb.contents d w !! idToKey id with
                     | Some v => (v, None)
                     | None => ([], Some ErrNotFound)
                     end
           end, w').
Proof.
  intros Hdb Hio. unfold getValue, leveldb.Get, bind. rewrite Hdb. simpl.
  rewrite Hio. destruct e as [e|]; [reflexivity|].
  rewrite (contents_io d w w' None Hio).
  destruct (leveldb.contents d w !! idToKey id); reflexivity.
Qed.

(** The store access never answers [ErrOutOfBounds]. *)
Lemma getValue_not_OutOfBounds (q : Queue) (id : Z) (w w' : World)
      (r : bytes * option error) :
  getValue q id w = Returns (r, w') -> snd r <> Some ErrOutOfBounds.
Proof.
  unfold getValue, leveldb.Get, bind.
  destruct (db q) as [d|]; [|discriminate].
  destruct (leveldb.closed d); [intros H; injection H as <- _; discriminate|].
  destruct (io w) as [[e w1]|] eqn:Hio; [|discriminate].
  apply io_faults in Hio as (_ & _ & Hne).
  destruct e as [e|]; simpl.
  - unfold ret. intros H; injection H as <- _. exact Hne.
  - destruct (leveldb.contents (leveldb.dir d) w1 !! idToKey id);
      unfold ret; intros H; injection H as <- _; discriminate.
Qed.

Section Lookup.

Variable N : Z.
Hypothesis HN : 0 < N <= DefaultMaxQueueSize.

Lemma getValueByID_empty (q : Queue) (id : Z) (w : World) :
  in_ring N q -> head q = tail q ->
  getValueByID N q id w = Returns (([], Some ErrEmpty), w).
Proof.
  intros Hr E. unfold getValueByID, bind.
  rewrite (Length_in_ring N HN q w Hr).
  apply (Length_zero_iff N q Hr) in E. rewrite E. reflexivity.
Qed.

Lemma getValueByID_nonempty (q : Queue) (id : Z) (w : World) :
  in_ring N q -> head q <> tail q ->
  getValueByID N q id w =
  if head q <? tail q then
    if (id <=? head q) || (tail q <? id)
    then Returns (([], Some ErrOutOfBounds), w) else getValue q id w
  else
    if (tail q <? id) && (id <=? head q)
    then Returns (([], Some ErrOutOfBounds), w) else getValue q id w.
Proof.
  intros Hr Hne. unfold getValueByID, bind.
  rewrite (Length_in_ring N HN q w Hr).
  destruct (Z.eqb_spec ((N + tail q - head q) mod N) 0) as [E|_].
  - apply (Length_zero_iff N q Hr) in E. contradiction.
  - destruct (Z.ltb_spec (head q) (tail q)).
    + destruct ((id <=? head q) || (tail q <? id)); reflexivity.
    + destruct (Z.ltb_spec (tail q) (head q)); [|lia].
      destruct ((tail q <? id) && (id <=? head q)); reflexivity.
Qed.

Lemma getValueByID_valid (q : Queue) (id : Z) (w : World) :
  in_ring N q -> valid_id q id ->
  getValueByID N q id w = getValue q id w.
Proof.
  intros Hr (Hne & Hlt & Hgt). rewrite getValueByID_nonempty by assumption.
  destruct (Z.ltb_spec (head q) (tail q)).
  - destruct (Z.leb_spec id (head q)), (Z.ltb_spec (tail q) id);
      simpl; try reflexivity; lia.
  - destruct (Z.ltb_spec (tail q) id), (Z.leb_spec id (head q));
      simpl; try reflexivity. lia.
Qed.

(** The identifier that [dequeue] asks for is valid whenever the queue is
    not empty. *)
Lemma next_head_valid (q : Queue) :
  in_ring N q -> head q <> tail q -> valid_id q ((head q + 1) mod N).
Proof.
  intros [Hh Ht] Hne. unfold valid_id. rewrite ring_next by lia.
  destruct (Z.ltb_spec (head q + 1) N); repeat split; try assumption; lia.
Qed.

End Lookup.

(** ** Single steps on a store that does not fail *)

Section Steps.

Variable N : Z.
Hypothesis HN : 0 < N <= DefaultMaxQueueSize.

Lemma enqueue_ok (q : Queue) (v : bytes) (d : string) (w : World) :
  opened q d -> faults w = [] -> in_ring N q ->
  (tail q + 1) mod N <> head q ->
  enqueue N q v w =
  Returns ((set_tail ((tail q + 1) mod N) q, None),
           leveldb.store d
             (<[idToKey ((tail q + 1) mod N) := v]> (leveldb.contents d w)) w).
Proof.
  intros [Ho Hdb] Hf [Hh Ht] Hne. unfold enqueue, bind.
  rewrite Ho. simpl. rewrite umod_nonzero by lia.
  rewrite (add64_small N HN) by lia.
  destruct (Z.eqb_spec ((tail q + 1) mod N) (head q)); [contradiction|].
  unfold leveldb.Put, bind. rewrite Hdb. simpl.
  rewrite (io_quiet w Hf). reflexivity.
Qed.

Lemma dequeue_ok (q : Queue) (v : bytes) (d : string) (w : World) :
  opened q d -> faults w = [] -> in_ring N q -> head q <> tail q ->
  leveldb.contents d w !! idToKey ((head q + 1) mod N) = Some v ->
  dequeue N q w =
  Returns ((set_head ((head q + 1) mod N) q, v, None),
           leveldb.store d
             (delete (idToKey ((head q + 1) mod N)) (leveldb.contents d w)) w).
Proof.
  intros [Ho Hdb] Hf Hr Hne Hv. unfold dequeue, bind.
  rewrite Ho. simpl. rewrite umod_nonzero by lia.
  rewrite (add64_small N HN) by (destruct Hr; lia).
  rewrite (getValueByID_valid N HN) by auto using next_head_valid.
  rewrite (getValue_spec q _ d w w None Hdb (io_quiet w Hf)), Hv.
  unfold leveldb.Delete, bind. rewrite Hdb. simpl.
  rewrite (io_quiet w Hf). reflexivity.
Qed.

End Steps.

(** [keyToID] does not depend on the world, and leaves it as it is. *)
Lemma keyToID_cases (k : bytes) :
  (exists id, forall w, keyToID k w = Returns (id, w)) \/
  (forall w, keyToID k w = Panics).
Proof.
  unfold keyToID, BigEndian.Uint64.
  destruct k as [|? [|? [|? [|? [|? [|? [|? [|? ?]]]]]]]];
    try (right; reflexivity).
  left. eexists. intros w. reflexivity.
Qed.

Lemma keyToID_long (k : bytes) :
  (8 <= length k)%nat -> exists id, forall w, keyToID k w = Returns (id, w).
Proof.
  intros Hl. unfold keyToID, BigEndian.Uint64.
  destruct k as [|? [|? [|? [|? [|? [|? [|? [|? ?]]]]]]]];
    simpl in Hl; try lia.
  eexists. intros w. reflexivity.
Qed.

Lemma seek_quiet (it : leveldb.Iterator) (target : option bytes) (w : World) :
  leveldb.iter_err it = None -> faults w = [] ->
  leveldb.seek it target w =
  Returns ((leveldb.mkIter (leveldb.keys it) target None,
            match target with Some _ => true | None => false end), w).
Proof.
  intros He Hf. unfold leveldb.seek, bind. rewrite He, (io_quiet w Hf).
  destruct target; reflexivity.
Qed.

(** [init] on a store that does not fail: nothing changes when the table
    is empty; otherwise [head] and [tail] come from the first and the last
    key of the iterator. *)
Lemma init_quiet (q : Queue) (d : string) (w : World) :
  db q = Some (leveldb.mkDB d false) -> faults w = [] ->
  init q w =
  match List.head (leveldb.sorted_keys (leveldb.contents d w)),
        list.last (leveldb.sorted_keys (leveldb.contents d w)) with
  | Some kf, Some kl =>
      match keyToID kf w with
      | Returns (idf, _) =>
          match keyToID kl w with
          | Returns (idl, _) =>
              Returns ((set_tail idl (set_head (sub64 idf 1) q), None), w)
          | Panics => Panics
          end
      | Panics => Panics
      end
  | _, _ => Returns ((q, None), w)
  end.
Proof.
  intros Hdb Hf. unfold init, bind, leveldb.NewIterator. rewrite Hdb. simpl.
  unfold leveldb.First, leveldb.Last.
  rewrite seek_quiet by (assumption || reflexivity). simpl.
  destruct (leveldb.sorted_keys (leveldb.contents d w)) as [|k l] eqn:Ek.
  - simpl. rewrite seek_quiet by (assumption || reflexivity). reflexivity.
  - simpl List.head. cbv iota beta.
    assert (Hl : exists kl, list.last (k :: l) = Some kl).
    { destruct (list.last (k :: l)) eqn:El; [eauto|].
      apply last_None in El. discriminate. }
    destruct Hl as [kl Hl]. rewrite Hl.
    unfold leveldb.Key. simpl.
    destruct (keyToID_cases k) as [[idf Hk]|Hk]; rewrite !Hk;
      [|reflexivity].
    unfold ret. rewrite seek_quiet by (assumption || reflexivity). simpl.
    destruct (keyToID_cases kl) as [[idl Hkl]|Hkl]; rewrite !Hkl;
      reflexivity.
Qed.

Lemma OpenQueue_fresh (dataDir : string) (w : World) :
  leveldb.contents dataDir w = ∅ -> faults w = [] ->
  OpenQueue dataDir w =
  Returns ((mkQueue dataDir (Some (leveldb.mkDB dataDir false)) 0 0 true, None),
           leveldb.store dataDir ∅ w).
Proof.
  intros Hc Hf. unfold OpenQueue, leveldb.OpenFile, bind.
  rewrite (io_quiet w Hf). unfold leveldb.update. rewrite Hc.
  cbv iota beta. unfold ret at 1.
  rewrite (init_quiet _ dataDir) by (reflexivity || exact Hf).
  rewrite contents_store. reflexivity.
Qed.

(** ** Runs on a store that does not fail *)

Lemma store_store (d : string) (s s' : gmap bytes bytes) (w : World) :
  leveldb.store d s (leveldb.store d s' w) = leveldb.store d s w.
Proof.
  unfold leveldb.store. simpl. rewrite insert_insert_eq. reflexivity.
Qed.

Lemma set_tail_id (q : Queue) : set_tail (tail q) q = q.
Proof. destruct q; reflexivity. Qed.

Lemma set_head_id (q : Queue) : set_head (head q) q = q.
Proof. destruct q; reflexivity. Qed.

Lemma put_all_other (vs : list bytes) (t : Z) (s : gmap bytes bytes) (k : bytes) :
  (forall j, 0 <= j < Z.of_nat (length vs) -> k <> idToKey (t + 1 + j)) ->
  put_all t vs s !! k = s !! k.
Proof.
  revert t s. induction vs as [|v vs IH]; intros t s Hk; [reflexivity|].
  simpl put_all. rewrite IH.
  - apply lookup_insert_ne. intros E. apply (Hk 0).
    + simpl length. lia.
    + rewrite Z.add_0_r. symmetry. exact E.
  - intros j Hj. replace (t + 1 + 1 + j) with (t + 1 + (j + 1)) by lia.
    apply Hk. simpl length. lia.
Qed.

Lemma put_all_lookup (vs : list bytes) (t : Z) (s : gmap bytes bytes)
      (i : nat) (v : bytes) :
  0 <= t -> t + Z.of_nat (length vs) <= MaxUint64 ->
  vs !! i = Some v ->
  put_all t vs s !! idToKey (t + 1 + Z.of_nat i) = Some v.
Proof.
  revert t s i. induction vs as [|v0 vs IH]; intros t s i Ht Hb Hi;
    [discriminate|].
  simpl length in Hb. simpl put_all. destruct i as [|i].
  - injection Hi as ->. rewrite put_all_other.
    + rewrite Z.add_0_r. apply lookup_insert_eq.
    + intros j Hj E. apply idToKey_inj in E; lia.
  - replace (t + 1 + Z.of_nat (S i)) with (t + 1 + 1 + Z.of_nat i) by lia.
    apply IH; [lia|lia|exact Hi].
Qed.

Section Runs.

Variable N : Z.
Hypothesis HN : 0 < N <= DefaultMaxQueueSize.
Variable d : string.

Lemma ring_below_MaxUint64 (x : Z) : x < N -> x <= MaxUint64.
Proof.
  rewrite DefaultMaxQueueSize_eq in HN. unfold MaxUint64. lia.
Qed.

Lemma enqueue_all_ok (vs : list bytes) (q : Queue) (w : World) :
  opened q d -> faults w = [] -> in_ring N q -> head q <= tail q ->
  tail q + Z.of_nat (length vs) < N ->
  exists w',
    enqueue_all N q vs w =
    Returns ((set_tail (tail q + Z.of_nat (length vs)) q,
              map (fun _ => None) vs), w') /\
    faults w' = [] /\
    leveldb.contents d w' = put_all (tail q) vs (leveldb.contents d w).
Proof.
  revert q w. induction vs as [|v vs IH]; intros q w Ho Hf Hr Hle Hlen.
  - exists w. simpl. rewrite Z.add_0_r, set_tail_id. auto.
  - simpl length in Hlen. destruct Hr as [Hh Ht].
    assert (Hn : (tail q + 1) mod N = tail q + 1) by (apply Z.mod_small; lia).
    simpl enqueue_all. unfold bind.
    rewrite (enqueue_ok N HN q v d w Ho Hf (conj Hh Ht)) by (rewrite Hn; lia).
    rewrite Hn.
    destruct (IH (set_tail (tail q + 1) q)
                 (leveldb.store d
                    (<[idToKey (tail q + 1) := v]> (leveldb.contents d w)) w))
      as (w' & Hrun & Hf' & Hc').
    + exact Ho.
    + exact Hf.
    + split; cbn [head tail set_tail]; lia.
    + cbn [head tail set_tail]. lia.
    + cbn [head tail set_tail]. lia.
    + exists w'. rewrite Hrun. split; [|split].
      * unfold ret, set_tail. cbn [tail head db DataDir isOpen map length].
        do 4 f_equal. lia.
      * exact Hf'.
      * rewrite Hc', contents_store. reflexivity.
Qed.

Lemma dequeue_n_ok (vs : list bytes) (q : Queue) (w : World) :
  opened q d -> faults w = [] -> in_ring N q ->
  head q + Z.of_nat (length vs) <= tail q ->
  (forall i v, vs !! i = Some v ->
     leveldb.contents d w !! idToKey (head q + 1 + Z.of_nat i) = Some v) ->
  exists w',
    dequeue_n N q (length vs) w =
    Returns ((set_head (head q + Z.of_nat (length vs)) q,
              map (fun v => (v, None)) vs), w') /\
    faults w' = [].
Proof.
  revert q w. induction vs as [|v vs IH]; intros q w Ho Hf Hr Hlen Hvs.
  - exists w. simpl. rewrite Z.add_0_r, set_head_id. auto.
  - simpl length in Hlen. destruct Hr as [Hh Ht].
    assert (Hn : (head q + 1) mod N = head q + 1) by (apply Z.mod_small; lia).
    pose proof (Hvs 0%nat v eq_refl) as Hv. rewrite Z.add_0_r in Hv.
    simpl dequeue_n. unfold bind.
    rewrite (dequeue_ok N HN q v d w Ho Hf (conj Hh Ht))
      by (rewrite ?Hn; (lia || exact Hv)).
    rewrite Hn.
    destruct (IH (set_head (head q + 1) q)
                 (leveldb.store d
                    (delete (idToKey (head q + 1)) (leveldb.contents d w)) w))
      as (w' & Hrun & Hf').
    + exact Ho.
    + exact Hf.
    + split; cbn [head tail set_head]; lia.
    + cbn [head tail set_head]. lia.
    + intros i v' Hi. cbn [head set_head]. rewrite contents_store.
      rewrite lookup_delete_ne.
      * replace (head q + 1 + 1 + Z.of_nat i)
          with (head q + 1 + Z.of_nat (S i)) by lia.
        apply Hvs. exact Hi.
      * apply lookup_lt_Some in Hi. intros E.
        apply idToKey_inj in E; [lia| |];
          split; try lia; apply ring_below_MaxUint64; lia.
    + exists w'. rewrite Hrun. split; [|exact Hf'].
      unfold ret, set_head. cbn [tail head db DataDir isOpen map length].
      do 4 f_equal. lia.
Qed.

End Runs.

(** ** Single steps on any store

    Whatever the store answers, an operation on a queue that holds a
    handle returns, and it either leaves the queue as it was or advances
    one of the two counters by one position of the ring. *)

Lemma io_returns (w : World) : exists e w', io w = Returns (e, w').
Proof. unfold io. destruct (faults w); eauto. Qed.

Lemma getValue_returns (q : Queue) (id : Z) (w : World) :
  (exists d, db q = Some d) ->
  exists r w', getValue q id w = Returns (r, w').
Proof.
  intros [d Hd]. unfold getValue, leveldb.Get, bind. rewrite Hd.
  destruct (leveldb.closed d); [eauto|].
  destruct (io_returns w) as (e & w1 & ->).
  destruct e; simpl; [eauto|].
  destruct (leveldb.contents (leveldb.dir d) w1 !! idToKey id); eauto.
Qed.

Lemma getValueByID_returns (N : Z) (q : Queue) (id : Z) (w : World) :
  N <> 0 -> (exists d, db q = Some d) ->
  exists r w', getValueByID N q id w = Returns (r, w') /\
    (snd r = None ->
     sub64 (add64 N (tail q)) (head q) mod N <> 0).
Proof.
  intros HN Hd. unfold getValueByID, Length, bind.
  rewrite umod_nonzero by exact HN.
  destruct (getValue_returns q id w Hd) as (r & w' & Hg).
  destruct (Z.eqb_spec (sub64 (add64 N (tail q)) (head q) mod N) 0).
  { eexists _, _. split; [reflexivity|discriminate]. }
  destruct (head q <? tail q).
  - destruct ((id <=? head q) || (tail q <? id)).
    + eexists _, _. split; [reflexivity|discriminate].
    + rewrite Hg. eauto.
  - destruct (tail q <? head q); [|rewrite Hg; eauto].
    destruct ((tail q <? id) && (id <=? head q)).
    + eexists _, _. split; [reflexivity|discriminate].
    + rewrite Hg. eauto.
Qed.

Lemma enqueue_returns (N : Z) (q : Queue) (v : bytes) (w : World) :
  N <> 0 -> has_handle q ->
  exists q' e w',
    enqueue N q v w = Returns ((q', e), w') /\
    ((e <> None /\ q' = q) \/
     (e = None /\ isOpen q = true /\
      add64 (tail q) 1 mod N <> head q /\
      q' = set_tail (add64 (tail q) 1 mod N) q)).
Proof.
  intros HN Hh. unfold enqueue, bind.
  destruct (isOpen q) eqn:Ho; simpl.
  2:{ eexists _, _, _. split; [reflexivity|]. left. split; [discriminate|reflexivity]. }
  rewrite umod_nonzero by exact HN.
  destruct (Z.eqb_spec (add64 (tail q) 1 mod N) (head q)) as [|Hne].
  { eexists _, _, _. split; [reflexivity|]. left. split; [discriminate|reflexivity]. }
  destruct (Hh Ho) as [d Hd]. unfold leveldb.Put, bind. rewrite Hd.
  destruct (leveldb.closed d).
  { eexists _, _, _. split; [reflexivity|]. left. split; [discriminate|reflexivity]. }
  destruct (io_returns w) as (e & w1 & ->). destruct e; simpl.
  - eexists _, _, _. split; [reflexivity|]. left. split; [discriminate|reflexivity].
  - eexists _, _, _. split; [reflexivity|]. right. auto.
Qed.

Lemma dequeue_returns (N : Z) (q : Queue) (w : World) :
  N <> 0 -> has_handle q ->
  exists q' v e w',
    dequeue N q w = Returns ((q', v, e), w') /\
    ((e <> None /\ q' = q) \/
     (e = None /\ isOpen q = true /\
      sub64 (add64 N (tail q)) (head q) mod N <> 0 /\
      q' = set_head (add64 (head q) 1 mod N) q)).
Proof.
  intros HN Hh. unfold dequeue, bind.
  destruct (isOpen q) eqn:Ho; simpl.
  2:{ eexists _, _, _, _. split; [reflexivity|]. left. split; [discriminate|reflexivity]. }
  rewrite umod_nonzero by exact HN.
  destruct (Hh Ho) as [d Hd].
  destruct (getValueByID_returns N q (add64 (head q) 1 mod N) w HN
              (ex_intro _ d Hd)) as ([v e] & w1 & -> & Hlen).
  destruct e as [e|]; simpl.
  { eexists _, _, _, _. split; [reflexivity|]. left. split; [discriminate|reflexivity]. }
  unfold leveldb.Delete, bind. rewrite Hd.
  destruct (leveldb.closed d).
  { eexists _, _, _, _. split; [reflexivity|]. left. split; [discriminate|reflexivity]. }
  destruct (io_returns w1) as (e & w2 & ->). destruct e; simpl.
  - eexists _, _, _, _. split; [reflexivity|]. left. split; [discriminate|reflexivity].
  - eexists _, _, _, _. split; [reflexivity|]. right. auto.
Qed.

Lemma Close_returns (q : Queue) (w : World) :
  has_handle q ->
  exists q' e w',
    Close q w = Returns ((q', e), w') /\
    ((head q' = head q /\ tail q' = tail q /\ isOpen q' = isOpen q /\
      (isOpen q = true -> exists d, db q' = Some d)) \/
     (e = None /\ head q' = 0 /\ tail q' = 0 /\ isOpen q' = false)).
Proof.
  intros Hh. unfold Close, bind.
  destruct (isOpen q) eqn:Ho; simpl.
  2:{ eexists _, _, _. split; [reflexivity|]. left.
      split; [reflexivity|]. split; [reflexivity|]. split; [exact Ho|].
      intros H. discriminate H. }
  destruct (Hh Ho) as [d Hd]. unfold leveldb.Close, bind. rewrite Hd.
  destruct (leveldb.closed d).
  { eexists _, _, _. split; [reflexivity|]. left. simpl. eauto. }
  destruct (io_returns w) as (e & w1 & ->). destruct e; simpl.
  - eexists _, _, _. split; [reflexivity|]. left. simpl. eauto.
  - eexists _, _, _. split; [reflexivity|]. right. simpl. auto.
Qed.

(** ** Recovery on any store *)

Lemma sorted_keys_nonempty (s : gmap bytes bytes) :
  s <> ∅ ->
  exists kf kl, List.head (leveldb.sorted_keys s) = Some kf /\
                list.last (leveldb.sorted_keys s) = Some kl.
Proof.
  intros Hne.
  destruct (leveldb.sorted_keys s) as [|k l] eqn:E.
  - apply sorted_keys_nil in E. contradiction.
  - exists k. destruct (list.last (k :: l)) as [kl|] eqn:El; [eauto|].
    apply last_None in El. discriminate.
Qed.

Lemma seek_returns (it : leveldb.Iterator) (target : option bytes) (w : World) :
  exists it' ok w',
    leveldb.seek it target w = Returns ((it', ok), w') /\
    leveldb.keys it' = leveldb.keys it /\
    (ok = true -> exists k, target = Some k /\ leveldb.Key it' = k).
Proof.
  unfold leveldb.seek, bind. destruct (leveldb.iter_err it).
  { eexists _, _, _. split; [reflexivity|]. split; [reflexivity|discriminate]. }
  destruct (io_returns w) as (e & w1 & ->). destruct e.
  { eexists _, _, _. split; [reflexivity|]. split; [reflexivity|discriminate]. }
  destruct target as [k|].
  - eexists _, _, _. split; [reflexivity|]. split; [reflexivity|]. eauto.
  - eexists _, _, _. split; [reflexivity|]. split; [reflexivity|discriminate].
Qed.

(** [init] on any store whose keys have at least eight bytes: it returns,
    and each counter is either what it was or comes from a key of the
    table. *)
Lemma init_returns (q : Queue) (d : string) (w : World) :
  db q = Some (leveldb.mkDB d false) ->
  (forall k, k ∈ dom (leveldb.contents d w) -> (8 <= length k)%nat) ->
  exists q' e w',
    init q w = Returns ((q', e), w') /\
    db q' = db q /\ isOpen q' = isOpen q /\
    (head q' = head q \/
     exists k id, k ∈ dom (leveldb.contents d w) /\
                  (forall w0, keyToID k w0 = Returns (id, w0)) /\
                  head q' = sub64 id 1) /\
    (tail q' = tail q \/
     exists k id, k ∈ dom (leveldb.contents d w) /\
                  (forall w0, keyToID k w0 = Returns (id, w0)) /\
                  tail q' = id).
Proof.
  intros Hdb Hlong. unfold init, bind, leveldb.NewIterator. rewrite Hdb.
  cbn [leveldb.closed leveldb.dir].
  set (it0 := leveldb.mkIter _ None None).
  unfold leveldb.First, leveldb.Last.
  destruct (seek_returns it0 (List.head (leveldb.keys it0)) w)
    as (it1 & ok1 & w1 & -> & Hk1 & Hok1).
  destruct ok1;
    [ destruct (Hok1 eq_refl) as (k & Hhd & ->);
      apply sorted_keys_first in Hhd as [Hin _];
      destruct (keyToID_long k (Hlong k Hin)) as [id Hid];
      rewrite Hid; unfold ret at 1 | unfold ret at 1 ];
    cbv iota beta;
    destruct (seek_returns it1 (list.last (leveldb.keys it1)) w1)
      as (it2 & ok2 & w2 & -> & Hk2 & Hok2);
    cbv iota beta;
    (destruct ok2;
     [ destruct (Hok2 eq_refl) as (k2 & Hl & ->); rewrite Hk1 in Hl;
       apply sorted_keys_last in Hl as [Hin2 _];
       destruct (keyToID_long k2 (Hlong k2 Hin2)) as [id2 Hid2];
       rewrite Hid2 | ]);
    (eexists _, _, _; split; [reflexivity|]);
    cbn [db isOpen tail head set_tail set_head];
    (split; [exact Hdb|]); (split; [reflexivity|]); split; eauto 7.
Qed.

(** ** The length along any run *)

Lemma ring_len_enqueue (N h t : Z) :
  0 <= h < N -> 0 <= t < N -> (t + 1) mod N <> h ->
  (N + (t + 1) mod N - h) mod N = (N + t - h) mod N + 1.
Proof.
  intros Hh Ht. rewrite ring_next by lia.
  destruct (Z.ltb_spec (t + 1) N); intros Hne;
    rewrite !ring_distance by lia;
    destruct (Z.leb_spec h (t + 1)), (Z.leb_spec h t), (Z.leb_spec h 0); lia.
Qed.

Lemma ring_len_dequeue (N h t : Z) :
  0 <= h < N -> 0 <= t < N -> (N + t - h) mod N <> 0 ->
  (N + t - (h + 1) mod N) mod N = (N + t - h) mod N - 1.
Proof.
  intros Hh Ht. rewrite ring_next by lia.
  destruct (Z.ltb_spec (h + 1) N); intros Hne;
    rewrite !ring_distance in * by lia;
    destruct (Z.leb_spec (h + 1) t), (Z.leb_spec h t), (Z.leb_spec 0 t); lia.
Qed.

Section AnyRun.

Variable N : Z.
Hypothesis HN : 0 < N <= DefaultMaxQueueSize.

Lemma sub64_add64_ring (q : Queue) :
  in_ring N q -> sub64 (add64 N (tail q)) (head q) = N + tail q - head q.
Proof.
  intros [Hh Ht]. rewrite (add64_small N HN) by lia.
  unfold sub64, wrap64. rewrite DefaultMaxQueueSize_eq in HN.
  apply Z.mod_small. lia.
Qed.

(** Every operation returns and keeps [head] and [tail] in the ring; a
    successful enqueue adds one to the length, a successful dequeue takes
    one away, a failed operation changes nothing. *)
Lemma run_length (ops : list op) (q : Queue) (w : World) :
  in_ring N q -> has_handle q ->
  exists q' es w',
    run N q ops w = Returns ((q', es), w') /\
    in_ring N q' /\ has_handle q' /\
    (N + tail q' - head q') mod N = (N + tail q - head q) mod N + net ops es.
Proof.
  revert q w. induction ops as [|o ops IH]; intros q w Hr Hh.
  - exists q, [], w. simpl. rewrite Z.add_0_r. auto.
  - assert (HN0 : N <> 0) by lia. destruct o as [v|]; simpl run; unfold bind.
    + destruct (enqueue_returns N q v w HN0 Hh) as (q1 & e & w1 & -> & Hc).
      assert (H1 : in_ring N q1 /\ has_handle q1 /\
                   (N + tail q1 - head q1) mod N =
                   (N + tail q - head q) mod N +
                   match e with None => 1 | Some _ => 0 end).
      { destruct Hc as [[He ->]|(-> & Ho & Hne & ->)].
        - destruct e; [|contradiction]. rewrite Z.add_0_r. auto.
        - destruct Hr as [Hrh Hrt].
          rewrite (add64_small N HN) in * by lia.
          split; [|split].
          + unfold in_ring. cbn [head tail set_tail].
            split; [lia|]. apply Z.mod_pos_bound. lia.
          + exact Hh.
          + cbn [head tail set_tail]. apply ring_len_enqueue; assumption. }
      destruct H1 as (Hr1 & Hh1 & Hl1).
      destruct (IH q1 w1 Hr1 Hh1) as (q' & es & w' & -> & Hr' & Hh' & Hl').
      exists q', (e :: es), w'. repeat split; try apply Hr'; try assumption.
      rewrite Hl', Hl1. cbn [net]. destruct e; lia.
    + destruct (dequeue_returns N q w HN0 Hh) as (q1 & v & e & w1 & -> & Hc).
      assert (H1 : in_ring N q1 /\ has_handle q1 /\
                   (N + tail q1 - head q1) mod N =
                   (N + tail q - head q) mod N +
                   match e with None => -1 | Some _ => 0 end).
      { destruct Hc as [[He ->]|(-> & Ho & Hne & ->)].
        - destruct e; [|contradiction]. rewrite Z.add_0_r. auto.
        - rewrite (sub64_add64_ring q Hr) in Hne. destruct Hr as [Hrh Hrt].
          rewrite (add64_small N HN) in * by lia.
          split; [|split].
          + unfold in_ring. cbn [head tail set_head].
            split; [|lia]. apply Z.mod_pos_bound. lia.
          + exact Hh.
          + cbn [head tail set_head].
            rewrite ring_len_dequeue by assumption. lia. }
      destruct H1 as (Hr1 & Hh1 & Hl1).
      destruct (IH q1 w1 Hr1 Hh1) as (q' & es & w' & -> & Hr' & Hh' & Hl').
      exists q', (e :: es), w'. repeat split; try apply Hr'; try assumption.
      rewrite Hl', Hl1. cbn [net]. destruct e; lia.
Qed.

End AnyRun.

(** * The properties of the specification *)

(** C1 (FIFO law).  On a store that does not fail, open a queue on an
    empty directory, enqueue the payloads [vs] (fewer than
    [MaxQueueSize]) and dequeue as many times: every enqueue succeeds,
    and the i-th dequeue succeeds and returns the i-th payload. *)
Theorem fifo_law (N : Z) (dataDir : string) (w : World) (vs : list bytes) :
  0 < N <= DefaultMaxQueueSize ->
  Z.of_nat (length vs) < N ->
  leveldb.contents dataDir w = ∅ ->
  faults w = [] ->
  exists q0 w0 q1 w1 q2 w2,
    OpenQueue dataDir w = Returns ((q0, None), w0) /\
    enqueue_all N q0 vs w0 = Returns ((q1, map (fun _ => None) vs), w1) /\
    dequeue_n N q1 (length vs) w1 =
      Returns ((q2, map (fun v => (v, None)) vs), w2).
Proof.
  intros HN Hlen Hc Hf.
  set (q0 := mkQueue dataDir (Some (leveldb.mkDB dataDir false)) 0 0 true).
  set (w0 := leveldb.store dataDir ∅ w).
  assert (Ho : opened q0 dataDir) by (split; reflexivity).
  assert (Hr : in_ring N q0) by (split; simpl; lia).
  destruct (enqueue_all_ok N HN dataDir vs q0 w0 Ho Hf Hr)
    as (w1 & Hrun1 & Hf1 & Hc1); [simpl; lia | simpl; lia |].
  simpl in Hrun1, Hc1. unfold w0 in Hc1. rewrite contents_store in Hc1.
  destruct (dequeue_n_ok N HN dataDir vs (set_tail (Z.of_nat (length vs)) q0) w1)
    as (w2 & Hrun2 & _); try assumption.
  - split; simpl; lia.
  - simpl. lia.
  - intros i v Hi. rewrite Hc1. apply (put_all_lookup vs 0); [lia| |exact Hi].
    apply (ring_below_MaxUint64 N HN). lia.
  - exists q0, w0, (set_tail (Z.of_nat (length vs)) q0), w1.
    eexists. exists w2. split; [|split].
    + apply OpenQueue_fresh; assumption.
    + exact Hrun1.
    + exact Hrun2.
Qed.

(** C7 (Length).  For [MaxQueueSize] in its documented range:
    - on a store that does not fail, after opening a queue on an empty
      directory, [k] enqueues and then [j <= k] dequeues ([k] below
      [MaxQueueSize]), [Length] returns [k - j];
    - along any interleaving of enqueues and dequeues from a fresh queue,
      on any store, [Length] is the number of successful enqueues minus
      the number of successful dequeues;
    - for [head] and [tail] in the ring, [Length] returns
      [(MaxQueueSize + tail - head) mod MaxQueueSize] with no 64-bit
      wrap-around, and that is the number of identifiers from [head + 1]
      to [tail] along the ring, also when [tail] is below [head]. *)
Theorem length_law (N : Z) :
  0 < N <= DefaultMaxQueueSize ->
  (forall (dataDir : string) (w : World) (vs : list bytes) (j : nat),
     Z.of_nat (length vs) < N -> (j <= length vs)%nat ->
     leveldb.contents dataDir w = ∅ -> faults w = [] ->
     exists q0 w0 q1 w1 q2 rs w2,
       OpenQueue dataDir w = Returns ((q0, None), w0) /\
       enqueue_all N q0 vs w0 = Returns ((q1, map (fun _ => None) vs), w1) /\
       dequeue_n N q1 j w1 = Returns ((q2, rs), w2) /\
       Length N q2 w2 = Returns (Z.of_nat (length vs) - Z.of_nat j, w2)) /\
  (forall (dataDir : string) (d : leveldb.DB) (ops : list op) (w : World),
     exists q' es w',
       run N (mkQueue dataDir (Some d) 0 0 true) ops w =
         Returns ((q', es), w') /\
       Length N q' w' = Returns (net ops es, w')) /\
  (forall (q : Queue) (w : World),
     in_ring N q ->
     Length N q w = Returns ((N + tail q - head q) mod N, w) /\
     (N + tail q - head q) mod N =
       if head q <=? tail q then tail q - head q
       else (N - head q) + tail q).
Proof.
  intros HN. split; [|split].
  - intros dataDir w vs j Hlen Hj Hc Hf.
    set (q0 := mkQueue dataDir (Some (leveldb.mkDB dataDir false)) 0 0 true).
    set (w0 := leveldb.store dataDir ∅ w).
    assert (Ho : opened q0 dataDir) by (split; reflexivity).
    assert (Hr : in_ring N q0) by (split; simpl; lia).
    destruct (enqueue_all_ok N HN dataDir vs q0 w0 Ho Hf Hr)
      as (w1 & Hrun1 & Hf1 & Hc1); [simpl; lia | simpl; lia |].
    simpl in Hrun1, Hc1. unfold w0 in Hc1. rewrite contents_store in Hc1.
    set (q1 := set_tail (Z.of_nat (length vs)) q0) in *.
    assert (Hlj : length (take j vs) = j) by (rewrite length_take; lia).
    destruct (dequeue_n_ok N HN dataDir (take j vs) q1 w1)
      as (w2 & Hrun2 & Hf2); try assumption.
    + split; simpl; lia.
    + rewrite Hlj. simpl. lia.
    + intros i v Hi. apply lookup_take_Some in Hi as [Hi _].
      rewrite Hc1. apply (put_all_lookup vs 0); [lia| |exact Hi].
      apply (ring_below_MaxUint64 N HN). lia.
    + rewrite Hlj in Hrun2.
      exists q0, w0, q1, w1. eexists _, _, w2.
      split; [apply OpenQueue_fresh; assumption|].
      split; [exact Hrun1|]. split; [exact Hrun2|].
      rewrite (Length_in_ring N HN) by (split; simpl; lia).
      cbn [head tail set_head set_tail q1 q0].
      rewrite ring_distance by lia.
      destruct (Z.leb_spec (0 + Z.of_nat j) (Z.of_nat (length vs)));
        [|lia]. rewrite Z.add_0_l. reflexivity.
  - intros dataDir d ops w.
    destruct (run_length N HN ops (mkQueue dataDir (Some d) 0 0 true) w)
      as (q' & es & w' & Hrun & Hr' & _ & Hl).
    + split; simpl; lia.
    + intros _. exists d. reflexivity.
    + exists q', es, w'. split; [exact Hrun|].
      rewrite (Length_in_ring N HN q' w' Hr'), Hl. cbn [head tail].
      rewrite Z.add_0_r, Z.sub_0_r, Z.mod_same by lia. reflexivity.
  - intros q w Hr. split; [apply (Length_in_ring N HN q w Hr)|].
    destruct Hr as [Hh Ht]. rewrite ring_distance by lia.
    destruct (head q <=? tail q); lia.
Qed.

(** C5 (Full, with atomicity).  On an open queue, when
    [(tail + 1) mod MaxQueueSize = head], [enqueue] fails with [ErrFull];
    the queue and the world, hence [head], [tail] and the contents of the
    store, are what they were: no store call is made. *)
Theorem enqueue_full (N : Z) (q : Queue) (v : bytes) (w : World) :
  0 < N ->
  0 <= tail q < MaxUint64 ->
  isOpen q = true ->
  (tail q + 1) mod N = head q ->
  enqueue N q v w = Returns ((q, Some ErrFull), w).
Proof.
  intros HN Ht Ho Hfull. unfold enqueue, bind. rewrite Ho. simpl.
  rewrite umod_nonzero by lia.
  assert (Ha : add64 (tail q) 1 = tail q + 1).
  { unfold add64, wrap64. unfold MaxUint64 in Ht. apply Z.mod_small. lia. }
  rewrite Ha, Hfull, Z.eqb_refl. reflexivity.
Qed.

(** C6 (Empty, with atomicity).  On an open queue with [head = tail],
    [dequeue] fails with [ErrEmpty]; the queue and the world, hence
    [head], [tail] and the contents of the store, are what they were. *)
Theorem dequeue_empty (N : Z) (q : Queue) (w : World) :
  0 < N <= MaxUint64 ->
  isOpen q = true ->
  head q = tail q ->
  dequeue N q w = Returns ((q, [], Some ErrEmpty), w).
Proof.
  intros HN Ho E. unfold dequeue, bind. rewrite Ho. simpl.
  rewrite umod_nonzero by lia.
  unfold getValueByID, Length, bind. rewrite umod_nonzero by lia.
  assert (Hl : sub64 (add64 N (tail q)) (head q) mod N = 0).
  { rewrite E. unfold sub64, add64, wrap64. rewrite Zminus_mod_idemp_l.
    replace (N + tail q - tail q) with N by lia.
    unfold MaxUint64 in HN. rewrite (Z.mod_small N) by lia.
    apply Z.mod_same. lia. }
  rewrite Hl. reflexivity.
Qed.

(** C9 (Close).  [Close] on a closed queue returns [nil] at once and
    changes neither the queue nor the world.  On an open queue whose
    store closes without error, [Close] returns [nil], sets
    [head = tail = 0] and marks the queue closed; from then on every
    [enqueue] and every [dequeue] fails with [ErrDBClosed], leaving the
    queue and the world as they are, and [Length] returns [0]. *)
Theorem close_semantics (N : Z) (q : Queue) (w : World) :
  0 < N <= MaxUint64 ->
  (isOpen q = false -> Close q w = Returns ((q, None), w)) /\
  (isOpen q = true ->
   forall d' w',
     leveldb.Close (db q) w = Returns ((d', None), w') ->
     exists q',
       Close q w = Returns ((q', None), w') /\
       head q' = 0 /\ tail q' = 0 /\ isOpen q' = false /\
       forall (v : bytes) (w2 : World),
         enqueue N q' v w2 = Returns ((q', Some ErrDBClosed), w2) /\
         dequeue N q' w2 = Returns ((q', [], Some ErrDBClosed), w2) /\
         Length N q' w2 = Returns (0, w2)).
Proof.
  intros HN. split.
  - intros Ho. unfold Close. rewrite Ho. reflexivity.
  - intros Ho d' w' Hc. unfold Close, bind. rewrite Ho.
    cbn [negb]. cbv iota beta. rewrite Hc. simpl.
    eexists. split; [reflexivity|]. simpl. repeat split.
    unfold Length. simpl. rewrite umod_nonzero by lia.
    unfold sub64, add64, wrap64. rewrite Z.add_0_r, Z.sub_0_r, Z.mod_mod by lia.
    unfold MaxUint64 in HN. rewrite (Z.mod_small N) by lia.
    rewrite Z.mod_same by lia. reflexivity.
Qed.

(** C10 (Drop on a closed queue).  When the queue is already closed,
    [Close] reports success without touching the store and [Drop] goes on
    to [os.RemoveAll (DataDir q)]: [Drop] returns what the removal
    returns, and when the removal succeeds (as it does when no I/O fault
    is pending) the directory is gone. *)
Theorem drop_closed (q : Queue) (w : World) :
  isOpen q = false ->
  exists err w',
    os.RemoveAll (DataDir q) w = Returns (err, w') /\
    Drop q w = Returns ((q, err), w') /\
    (err = None -> disk w' !! DataDir q = None) /\
    (faults w = [] -> err = None).
Proof.
  intros Ho. unfold Drop, Close, bind. rewrite Ho. simpl.
  unfold os.RemoveAll, bind, io.
  destruct (faults w) as [|[msg|] fs]; simpl.
  - eexists _, _. split; [reflexivity|]. split; [reflexivity|].
    split; [|reflexivity]. intros _. simpl. apply lookup_delete_eq.
  - eexists _, _. split; [reflexivity|]. split; [reflexivity|].
    split; discriminate.
  - eexists _, _. split; [reflexivity|]. split; [reflexivity|].
    split; [|discriminate]. intros _. simpl. apply lookup_delete_eq.
Qed.

(** C8 (bounds-check policy of the lookup).  For [head] and [tail] in the
    ring:
    - [head = tail]: every [id] fails with [ErrEmpty];
    - [head < tail]: [id <= head] or [id > tail] fails with
      [ErrOutOfBounds], every other [id] goes on to the store access, and
      [ErrOutOfBounds] is returned for no other [id];
    - [tail < head]: [tail < id <= head] fails with [ErrOutOfBounds], every
      other [id] goes on to the store access, and [ErrOutOfBounds] is
      returned for no other [id].
    A failed check leaves the world as it is. *)
Theorem lookup_bounds_policy (N : Z) (q : Queue) (w : World) :
  0 < N <= DefaultMaxQueueSize ->
  in_ring N q ->
  (head q = tail q ->
   forall id, getValueByID N q id w = Returns (([], Some ErrEmpty), w)) /\
  (head q < tail q ->
   forall id,
     (id <= head q \/ tail q < id ->
      getValueByID N q id w = Returns (([], Some ErrOutOfBounds), w)) /\
     (head q < id <= tail q ->
      getValueByID N q id w = getValue q id w) /\
     ((exists v w',
         getValueByID N q id w = Returns ((v, Some ErrOutOfBounds), w')) <->
      (id <= head q \/ tail q < id))) /\
  (tail q < head q ->
   forall id,
     (tail q < id <= head q ->
      getValueByID N q id w = Returns (([], Some ErrOutOfBounds), w)) /\
     (~ (tail q < id <= head q) ->
      getValueByID N q id w = getValue q id w) /\
     ((exists v w',
         getValueByID N q id w = Returns ((v, Some ErrOutOfBounds), w')) <->
      tail q < id <= head q)).
Proof.
  intros HN Hr. split; [|split].
  - intros E id. apply (getValueByID_empty N HN); assumption.
  - intros Hlt id.
    assert (Hout : id <= head q \/ tail q < id ->
      getValueByID N q id w = Returns (([], Some ErrOutOfBounds), w)).
    { intros Hid. rewrite (getValueByID_nonempty N HN) by (auto; lia).
      rewrite (proj2 (Z.ltb_lt _ _) Hlt).
      destruct (Z.leb_spec id (head q)), (Z.ltb_spec (tail q) id);
        simpl; try reflexivity. lia. }
    assert (Hin : head q < id <= tail q ->
      getValueByID N q id w = getValue q id w).
    { intros Hid. apply (getValueByID_valid N HN); [assumption|].
      unfold valid_id. repeat split; lia. }
    split; [exact Hout|]. split; [exact Hin|]. split.
    + intros (v & w' & Hg).
      destruct (Z.leb_spec id (head q)); [auto|].
      destruct (Z.ltb_spec (tail q) id); [auto|].
      rewrite Hin in Hg by lia.
      apply getValue_not_OutOfBounds in Hg. contradiction.
    + intros Hid. eauto.
  - intros Hlt id.
    assert (Hout : tail q < id <= head q ->
      getValueByID N q id w = Returns (([], Some ErrOutOfBounds), w)).
    { intros Hid. rewrite (getValueByID_nonempty N HN) by (auto; lia).
      rewrite (proj2 (Z.ltb_ge _ _)) by lia.
      rewrite (proj2 (Z.ltb_lt (tail q) id)) by lia.
      rewrite (proj2 (Z.leb_le id (head q))) by lia. reflexivity. }
    assert (Hin : ~ (tail q < id <= head q) ->
      getValueByID N q id w = getValue q id w).
    { intros Hid. apply (getValueByID_valid N HN); [assumption|].
      unfold valid_id. repeat split; try lia. }
    split; [exact Hout|]. split; [exact Hin|]. split.
    + intros (v & w' & Hg).
      destruct (Z.ltb_spec (tail q) id); [|].
      * destruct (Z.leb_spec id (head q)); [lia|].
        rewrite Hin in Hg by lia.
        apply getValue_not_OutOfBounds in Hg. contradiction.
      * rewrite Hin in Hg by lia.
        apply getValue_not_OutOfBounds in Hg. contradiction.
    + intros Hid. eauto.
Qed.

(** C4, as the code has it.  For an [id] that passes the emptiness and
    ring-bounds checks, every error of the store access, the store's
    not-found error included, reaches the caller unchanged: an [id] with
    no entry under [idToKey id] in a store that does not fail yields
    [ErrNotFound], not [ErrOutOfBounds]. *)
Theorem lookup_store_errors (N : Z) (q : Queue) (id : Z) (w : World) :
  0 < N <= DefaultMaxQueueSize ->
  in_ring N q ->
  valid_id q id ->
  (forall v e w',
     leveldb.Get (db q) (idToKey id) w = Returns ((v, Some e), w') ->
     getValueByID N q id w = Returns (([], Some e), w')) /\
  (forall d,
     db q = Some (leveldb.mkDB d false) -> faults w = [] ->
     leveldb.contents d w !! idToKey id = None ->
     leveldb.Get (db q) (idToKey id) w = Returns (([], Some ErrNotFound), w) /\
     getValueByID N q id w = Returns (([], Some ErrNotFound), w)).
Proof.
  intros HN Hr Hv. rewrite (getValueByID_valid N HN q id w Hr Hv). split.
  - intros v e w' Hg. unfold getValue, bind. rewrite Hg. reflexivity.
  - intros d Hdb Hf Hnone.
    rewrite (getValue_spec q id d w w None Hdb (io_quiet w Hf)), Hnone.
    split; [|reflexivity].
    unfold leveldb.Get, bind. rewrite Hdb. simpl.
    rewrite (io_quiet w Hf), Hnone. reflexivity.
Qed.

(** C2 (Recovery).  [init] on a store that does not fail: when the table
    is empty the queue is left as it is, so that a queue opened on an
    empty directory has [head = tail = 0]; when the table holds at least
    one key (each of at least eight bytes, so that decoding does not
    panic), [head] becomes the identifier of the least key minus one, in
    [uint64] arithmetic, and [tail] the identifier of the greatest key. *)
Theorem init_recovery (q : Queue) (d : string) (w : World) :
  db q = Some (leveldb.mkDB d false) ->
  faults w = [] ->
  (leveldb.contents d w = ∅ ->
   init q w = Returns ((q, None), w) /\
   exists q0 w',
     OpenQueue d w = Returns ((q0, None), w') /\ head q0 = 0 /\ tail q0 = 0) /\
  (leveldb.contents d w <> ∅ ->
   (forall k, k ∈ dom (leveldb.contents d w) -> (8 <= length k)%nat) ->
   exists kf kl idf idl,
     (kf ∈ dom (leveldb.contents d w) /\
      forall k, k ∈ dom (leveldb.contents d w) -> bytes_le kf k) /\
     (kl ∈ dom (leveldb.contents d w) /\
      forall k, k ∈ dom (leveldb.contents d w) -> bytes_le k kl) /\
     (forall w0, keyToID kf w0 = Returns (idf, w0)) /\
     (forall w0, keyToID kl w0 = Returns (idl, w0)) /\
     init q w =
       Returns ((set_tail idl (set_head (sub64 idf 1) q), None), w) /\
     (1 <= idf -> sub64 idf 1 = idf - 1)).
Proof.
  intros Hdb Hf. split.
  - intros Hc. split.
    + rewrite (init_quiet q d w Hdb Hf), Hc. reflexivity.
    + eexists _, _. split; [apply OpenQueue_fresh; assumption|].
      split; reflexivity.
  - intros Hne Hlong.
    destruct (sorted_keys_nonempty _ Hne) as (kf & kl & Hkf & Hkl).
    pose proof (sorted_keys_first _ _ Hkf) as Hfirst.
    pose proof (sorted_keys_last _ _ Hkl) as Hlast.
    destruct (keyToID_long kf (Hlong kf (proj1 Hfirst))) as [idf Hidf].
    destruct (keyToID_long kl (Hlong kl (proj1 Hlast))) as [idl Hidl].
    exists kf, kl, idf, idl.
    split; [exact Hfirst|]. split; [exact Hlast|].
    split; [exact Hidf|]. split; [exact Hidl|]. split.
    + rewrite (init_quiet q d w Hdb Hf), Hkf, Hkl, Hidf, Hidl. reflexivity.
    + intros H1. pose proof (keyToID_range kf idf w w (Hidf w)) as Hr.
      unfold sub64, wrap64. unfold MaxUint64 in Hr.
      apply Z.mod_small. lia.
Qed.

(** C3, as the code has it.  For a nonzero [uint64] [MaxQueueSize]:
    [OpenQueue] on a directory whose keys are all keys of identifiers in
    [[1, MaxQueueSize)] returns, whatever the store answers, a queue with
    [head] and [tail] in [[0, MaxQueueSize)]; [enqueue], [dequeue] and
    [Close] always return and keep [head] and [tail] in that range. *)
Theorem ring_invariant (N : Z) :
  0 < N <= MaxUint64 ->
  (forall (dataDir : string) (w : World),
     (forall k, k ∈ dom (leveldb.contents dataDir w) ->
                exists i, 1 <= i < N /\ k = idToKey i) ->
     exists q e w',
       OpenQueue dataDir w = Returns ((q, e), w') /\
       in_ring N q /\ has_handle q) /\
  (forall (q : Queue) (v : bytes) (w : World),
     in_ring N q -> has_handle q ->
     exists q' e w',
       enqueue N q v w = Returns ((q', e), w') /\
       in_ring N q' /\ has_handle q') /\
  (forall (q : Queue) (w : World),
     in_ring N q -> has_handle q ->
     exists q' v e w',
       dequeue N q w = Returns ((q', v, e), w') /\
       in_ring N q' /\ has_handle q') /\
  (forall (q : Queue) (w : World),
     in_ring N q -> has_handle q ->
     exists q' e w',
       Close q w = Returns ((q', e), w') /\
       in_ring N q' /\ has_handle q').
Proof.
  intros HN. assert (HN0 : N <> 0) by lia. split; [|split; [|split]].
  - intros dataDir w Hkeys. unfold OpenQueue, leveldb.OpenFile, bind.
    destruct (io_returns w) as (e & w1 & Hio). rewrite Hio.
    destruct e as [e|]; cbv iota beta.
    + eexists _, _, _. split; [reflexivity|]. split.
      * split; simpl; lia.
      * intros H. discriminate H.
    + unfold leveldb.update, ret. cbv iota beta.
      set (q1 := set_isOpen true _).
      set (w2 := leveldb.store dataDir _ w1).
      assert (Hc : leveldb.contents dataDir w2 = leveldb.contents dataDir w).
      { unfold w2. rewrite contents_store. apply (contents_io _ _ _ _ Hio). }
      destruct (init_returns q1 dataDir w2 eq_refl)
        as (q' & e & w' & Hinit & Hdb' & Ho' & Hh' & Ht').
      { intros k Hk. rewrite Hc in Hk.
        destruct (Hkeys k Hk) as (i & _ & ->). rewrite idToKey_length. lia. }
      exists q', e, w'. split; [exact Hinit|]. split.
      * split.
        -- destruct Hh' as [->|(k & id & Hk & Hid & ->)]; [simpl; lia|].
           rewrite Hc in Hk. destruct (Hkeys k Hk) as (i & Hi & ->).
           specialize (Hid w).
           rewrite keyToID_idToKey in Hid by lia. injection Hid as <-.
           unfold sub64, wrap64. unfold MaxUint64 in HN.
           rewrite Z.mod_small by lia. lia.
        -- destruct Ht' as [->|(k & id & Hk & Hid & ->)]; [simpl; lia|].
           rewrite Hc in Hk. destruct (Hkeys k Hk) as (i & Hi & ->).
           specialize (Hid w).
           rewrite keyToID_idToKey in Hid by lia. injection Hid as <-. lia.
      * intros _. rewrite Hdb'. simpl. eauto.
  - intros q v w Hr Hh.
    destruct (enqueue_returns N q v w HN0 Hh) as (q' & e & w' & Hrun & Hc).
    exists q', e, w'. split; [exact Hrun|].
    destruct Hc as [[_ ->]|(_ & _ & _ & ->)]; [auto|]. split; [|exact Hh].
    destruct Hr as [Hrh Hrt]. split; cbn [head tail set_tail]; [exact Hrh|].
    apply Z.mod_pos_bound. lia.
  - intros q w Hr Hh.
    destruct (dequeue_returns N q w HN0 Hh) as (q' & v & e & w' & Hrun & Hc).
    exists q', v, e, w'. split; [exact Hrun|].
    destruct Hc as [[_ ->]|(_ & _ & _ & ->)]; [auto|]. split; [|exact Hh].
    destruct Hr as [Hrh Hrt]. split; cbn [head tail set_head]; [|exact Hrt].
    apply Z.mod_pos_bound. lia.
  - intros q w Hr Hh.
    destruct (Close_returns q w Hh) as (q' & e & w' & Hrun & Hc).
    exists q', e, w'. split; [exact Hrun|].
    destruct Hc as [(Hh' & Ht' & Ho' & Hd')|(_ & Hh' & Ht' & Ho')].
    + split; [unfold in_ring; rewrite Hh', Ht'; exact Hr|].
      intros H. rewrite Ho' in H. auto.
    + split; [unfold in_ring; rewrite Hh', Ht'; lia|].
      intros H. rewrite Ho' in H. discriminate H.
Qed.

(** * The theorems at concrete inputs *)

Ltac in_range := vm_compute; split; (reflexivity || discriminate).

Lemma fifo_law_witness :
  exists q0 w0 q1 w1 q2 w2,
    OpenQueue "q" quiet_world = Returns ((q0, None), w0) /\
    enqueue_all 5 q0 [payload_a; payload_b; payload_c] w0 =
      Returns ((q1, [None; None; None]), w1) /\
    dequeue_n 5 q1 3 w1 =
      Returns ((q2, [(payload_a, None); (payload_b, None); (payload_c, None)]),
               w2).
Proof.
  apply (fifo_law 5 "q" quiet_world [payload_a; payload_b; payload_c]).
  - in_range.
  - simpl. lia.
  - apply contents_nothing.
  - reflexivity.
Defined.

Lemma restart_contents :
  leveldb.contents "q" restart_world =
  {[ idToKey 3 := payload_a; idToKey 4 := payload_b ]}.
Proof. apply contents_singleton. Qed.

Lemma init_recovery_witness :
  exists kf kl idf idl,
    (kf ∈ dom (leveldb.contents "q" restart_world) /\
     forall k, k ∈ dom (leveldb.contents "q" restart_world) -> bytes_le kf k) /\
    (kl ∈ dom (leveldb.contents "q" restart_world) /\
     forall k, k ∈ dom (leveldb.contents "q" restart_world) -> bytes_le k kl) /\
    (forall w0, keyToID kf w0 = Returns (idf, w0)) /\
    (forall w0, keyToID kl w0 = Returns (idl, w0)) /\
    init (open_queue 0 0) restart_world =
      Returns ((set_tail idl (set_head (sub64 idf 1) (open_queue 0 0)), None),
               restart_world) /\
    (1 <= idf -> sub64 idf 1 = idf - 1).
Proof.
  apply (proj2 (init_recovery (open_queue 0 0) "q" restart_world
                  eq_refl eq_refl)).
  - rewrite restart_contents. intros H.
    apply (f_equal (fun m => m !! idToKey 3)) in H.
    vm_compute in H. discriminate H.
  - rewrite restart_contents. intros k Hk.
    rewrite dom_insert, dom_singleton in Hk.
    apply elem_of_union in Hk as [Hk|Hk];
      apply elem_of_singleton in Hk; subst k; simpl; lia.
Defined.

Lemma ring_invariant_witness :
  exists q e w',
    OpenQueue "q" restart_world = Returns ((q, e), w') /\
    in_ring 5 q /\ has_handle q.
Proof.
  apply (proj1 (ring_invariant 5 ltac:(in_range))).
  rewrite restart_contents. intros k Hk.
  rewrite dom_insert, dom_singleton in Hk.
  apply elem_of_union in Hk as [Hk|Hk]; apply elem_of_singleton in Hk.
  - exists 3. split; [lia|exact Hk].
  - exists 4. split; [lia|exact Hk].
Defined.

Lemma lookup_store_errors_witness :
  leveldb.Get (db (open_queue 0 1)) (idToKey 1) quiet_world =
    Returns (([], Some ErrNotFound), quiet_world) /\
  getValueByID 5 (open_queue 0 1) 1 quiet_world =
    Returns (([], Some ErrNotFound), quiet_world).
Proof.
  apply (proj2 (lookup_store_errors 5 (open_queue 0 1) 1 quiet_world
                  ltac:(in_range)
                  ltac:(split; simpl; lia)
                  ltac:(unfold valid_id; simpl; lia)) "q").
  - reflexivity.
  - reflexivity.
  - unfold quiet_world. rewrite contents_nothing. apply lookup_empty.
Defined.

Lemma enqueue_full_witness :
  enqueue 5 (open_queue 0 4) payload_a quiet_world =
    Returns ((open_queue 0 4, Some ErrFull), quiet_world).
Proof.
  apply (enqueue_full 5 (open_queue 0 4) payload_a quiet_world).
  - lia.
  - in_range.
  - reflexivity.
  - reflexivity.
Defined.

Lemma dequeue_empty_witness :
  dequeue 5 (open_queue 2 2) restart_world =
    Returns ((open_queue 2 2, [], Some ErrEmpty), restart_world).
Proof.
  apply (dequeue_empty 5 (open_queue 2 2) restart_world).
  - in_range.
  - reflexivity.
  - reflexivity.
Defined.

Lemma length_law_witness :
  exists q0 w0 q1 w1 q2 rs w2,
    OpenQueue "q" quiet_world = Returns ((q0, None), w0) /\
    enqueue_all 5 q0 [payload_a; payload_b; payload_c] w0 =
      Returns ((q1, [None; None; None]), w1) /\
    dequeue_n 5 q1 1 w1 = Returns ((q2, rs), w2) /\
    Length 5 q2 w2 = Returns (3 - 1, w2).
Proof.
  apply (proj1 (length_law 5 ltac:(in_range))
           "q" quiet_world [payload_a; payload_b; payload_c] 1%nat).
  - simpl. lia.
  - simpl. lia.
  - apply contents_nothing.
  - reflexivity.
Defined.

Lemma lookup_bounds_policy_witness :
  (1 < 2 <= 3 ->
   getValueByID 5 (open_queue 3 1) 2 quiet_world =
     Returns (([], Some ErrOutOfBounds), quiet_world)) /\
  (~ (1 < 2 <= 3) ->
   getValueByID 5 (open_queue 3 1) 2 quiet_world =
     getValue (open_queue 3 1) 2 quiet_world) /\
  ((exists v w',
      getValueByID 5 (open_queue 3 1) 2 quiet_world =
        Returns ((v, Some ErrOutOfBounds), w')) <->
   1 < 2 <= 3).
Proof.
  apply (proj2 (proj2 (lookup_bounds_policy 5 (open_queue 3 1) quiet_world
                         ltac:(in_range) ltac:(split; simpl; lia)))
           ltac:(simpl; lia) 2).
Defined.

Lemma close_semantics_witness :
  exists q',
    Close (open_queue 1 3) quiet_world = Returns ((q', None), quiet_world) /\
    head q' = 0 /\ tail q' = 0 /\ isOpen q' = false /\
    forall (v : bytes) (w2 : World),
      enqueue 5 q' v w2 = Returns ((q', Some ErrDBClosed), w2) /\
      dequeue 5 q' w2 = Returns ((q', [], Some ErrDBClosed), w2) /\
      Length 5 q' w2 = Returns (0, w2).
Proof.
  apply (proj2 (close_semantics 5 (open_queue 1 3) quiet_world
                  ltac:(in_range)) eq_refl
               (Some (leveldb.mkDB "q" true)) quiet_world).
  reflexivity.
Defined.

Lemma drop_closed_witness :
  exists err w',
    os.RemoveAll "q" restart_world = Returns (err, w') /\
    Drop closed_queue restart_world = Returns ((closed_queue, err), w') /\
    (err = None -> disk w' !! "q" = None) /\
    (faults restart_world = [] -> err = None).
Proof.
  apply (drop_closed closed_queue restart_world). reflexivity.
Defined.

(** * Where the code departs from the specification *)

(** C3 as stated fails: [OpenQueue] on a directory that holds an entry
    under identifier [0] and one under identifier [2^63] recovers
    [head = 2^64 - 1] and [tail = 2^63], both outside the ring of the
    default [MaxQueueSize]. *)
Lemma ring_invariant_counterexample :
  exists q w',
    OpenQueue "q" stale_world = Returns ((q, None), w') /\
    head q = MaxUint64 /\ tail q = 2 ^ 63 /\
    ~ (0 <= head q < DefaultMaxQueueSize) /\
    ~ (0 <= tail q < DefaultMaxQueueSize).
Proof.
  assert (E : match OpenQueue "q" stale_world with
              | Returns ((q, e), _) =>
                  q = open_queue MaxUint64 (2 ^ 63) /\ e = None
              | Panics => False
              end) by (vm_compute; split; reflexivity).
  destruct (OpenQueue "q" stale_world) as [[[q e] w']|]; [|contradiction].
  destruct E as [-> ->]. exists (open_queue MaxUint64 (2 ^ 63)), w'.
  split; [reflexivity|]. split; [reflexivity|]. split; [reflexivity|].
  split; intros [_ H]; vm_compute in H; discriminate H.
Qed.

(** Identifier [0] is reached in normal use: with [MaxQueueSize = 5], four
    enqueue/dequeue pairs and one more enqueue leave [head = 4] and
    [tail = 0], the only key being that of identifier [0].  Reopening the
    directory then recovers [head = 2^64 - 1]; [init] does not wrap the
    subtraction the way [enqueue] and [dequeue] wrap their additions. *)
Example recovery_after_wrap :
  match
    (let* (q, _) := OpenQueue "q" in
     let* (q, _) := run 5 q [Enq payload_a; Deq; Enq payload_a; Deq;
                             Enq payload_a; Deq; Enq payload_a; Deq;
                             Enq payload_b] in
     let* (q', e) := OpenQueue "q" in
     ret ((head q, tail q), e, (head q', tail q')))
      quiet_world
  with
  | Returns (r, _) => r = ((4, 0), None, (MaxUint64, 0))
  | Panics => False
  end.
Proof. vm_compute. reflexivity. Qed.

(** C4 as stated fails: identifier [1] passes the checks of a queue with
    [head = 0] and [tail = 1], the store holds nothing under its key, and
    the lookup answers [ErrNotFound], not [ErrOutOfBounds]. *)
Lemma lookup_not_found_counterexample :
  in_ring 5 (open_queue 0 1) /\
  valid_id (open_queue 0 1) 1 /\
  leveldb.contents "q" quiet_world !! idToKey 1 = None /\
  getValueByID 5 (open_queue 0 1) 1 quiet_world =
    Returns (([], Some ErrNotFound), quiet_world) /\
  ~ (exists v w',
       getValueByID 5 (open_queue 0 1) 1 quiet_world =
         Returns ((v, Some ErrOutOfBounds), w')).
Proof.
  assert (E : getValueByID 5 (open_queue 0 1) 1 quiet_world =
              Returns (([], Some ErrNotFound), quiet_world))
    by (vm_compute; reflexivity).
  split; [split; simpl; lia|]. split; [unfold valid_id; simpl; lia|].
  split; [unfold quiet_world; rewrite contents_nothing; apply lookup_empty|].
  split; [exact E|]. intros (v & w' & H). rewrite E in H. discriminate H.
Qed.

(** * Scenarios of the test-suite *)

(** Open an empty queue; enqueue "a", "b", "c"; the lengths and the
    values of four dequeues. *)
Example scenario_abc :
  match
    (let* (q, e0) := OpenQueue "q" in
     let* (q, es) := enqueue_all 5 q [payload_a; payload_b; payload_c] in
     let* l3 := Length 5 q in
     let* (q, v1, e1) := dequeue 5 q in
     let* l2 := Length 5 q in
     let* (q, v2, e2) := dequeue 5 q in
     let* l1 := Length 5 q in
     let* (q, v3, e3) := dequeue 5 q in
     let* l0 := Length 5 q in
     let* (q, v4, e4) := dequeue 5 q in
     ret (e0 :: es, [l3; l2; l1; l0], [(v1, e1); (v2, e2); (v3, e3); (v4, e4)]))
      quiet_world
  with
  | Returns (r, _) =>
      r = ([None; None; None; None], [3; 2; 1; 0],
           [(payload_a, None); (payload_b, None); (payload_c, None);
            ([], Some ErrEmpty)])
  | Panics => False
  end.
Proof. vm_compute. reflexivity. Qed.

(** [TestQueueWrap]: with [MaxQueueSize = 5], four enqueue/dequeue pairs
    and one more enqueue leave [head = 4], [tail = 0] and length 1; one
    more dequeue brings both counters back to 0. *)
Example scenario_wrap :
  match
    (let* (q, _) := OpenQueue "q" in
     let* (q, es) := run 5 q [Enq payload_a; Deq; Enq payload_a; Deq;
                              Enq payload_a; Deq; Enq payload_a; Deq;
                              Enq payload_a] in
     let* len := Length 5 q in
     let* (q', _, e) := dequeue 5 q in
     ret (es, (head q, tail q, len), e, (head q', tail q')))
      quiet_world
  with
  | Returns (r, _) =>
      r = (replicate 9 None, (4, 0, 1), None, (0, 0))
  | Panics => False
  end.
Proof. vm_compute. reflexivity. Qed.

(** [TestQueueClose]: after [Close] a dequeue fails with [ErrDBClosed]
    and the length is 0. *)
Example scenario_close :
  match
    (let* (q, _) := OpenQueue "q" in
     let* (q, _) := enqueue DefaultMaxQueueSize q payload_a in
     let* l1 := Length DefaultMaxQueueSize q in
     let* (q, _) := Close q in
     let* (q, _, e) := dequeue DefaultMaxQueueSize q in
     let* l0 := Length DefaultMaxQueueSize q in
     ret (l1, e, l0))
      quiet_world
  with
  | Returns (r, _) => r = (1, Some ErrDBClosed, 0)
  | Panics => False
  end.
Proof. vm_compute. reflexivity. Qed.

(** [TestQueueDrop]: the directory exists after [OpenQueue] and is gone
    after [Drop]. *)
Example scenario_drop :
  match
    (let* (q, _) := OpenQueue "q" in
     let* before := (fun w => Returns (bool_decide (is_Some (disk w !! "q")), w)) in
     let* (q, e) := Drop q in
     let* after := (fun w => Returns (bool_decide (is_Some (disk w !! "q")), w)) in
     ret (before, e, after))
      quiet_world
  with
  | Returns (r, _) => r = (true, None, false)
  | Panics => False
  end.
Proof. vm_compute. reflexivity. Qed.

(** Reopening without [Close] after three enqueues and one dequeue: the
    length is 2 and the next dequeue returns the second payload. *)
Example scenario_reopen :
  match
    (let* (q, _) := OpenQueue "q" in
     let* (q, _) := enqueue_all 5 q [payload_a; payload_b; payload_c] in
     let* (q, _, _) := dequeue 5 q in
     let* (q', e) := OpenQueue "q" in
     let* len := Length 5 q' in
     let* (q', v, e') := dequeue 5 q' in
     ret (e, len, v, e'))
      quiet_world
  with
  | Returns (r, _) => r = (None, 2, payload_b, None)
  | Panics => False
  end.
Proof. vm_compute. reflexivity. Qed.

(** * Further properties of the code *)

(** ** Key order and the inverse of the codec *)

Lemma idToKey_be_bytes (id : Z) : idToKey id = be_bytes 8 id.
Proof. reflexivity. Qed.

Lemma to_N_byte_of_Z (z : Z) : Byte.to_N (byte_of_Z z) = Z.to_N (z mod 256).
Proof.
  pose proof (Z_of_byte_of_Z z) as H. unfold Z_of_byte in H.
  assert (0 <= z mod 256 < 256) by (apply Z.mod_pos_bound; lia). lia.
Qed.

Lemma be_bytes_le (n : nat) (a b : Z) :
  0 <= a -> 0 <= b ->
  a / 2 ^ (8 * Z.of_nat n) = b / 2 ^ (8 * Z.of_nat n) ->
  (bytes_le (be_bytes n a) (be_bytes n b) <-> a <= b).
Proof.
  unfold bytes_le. induction n as [|n IH]; intros Ha Hb Hq.
  - change (2 ^ (8 * Z.of_nat 0)) with 1 in Hq. rewrite !Z.div_1_r in Hq.
    simpl. split; [lia|reflexivity].
  - cbn [be_bytes bytes_leb]. rewrite !to_N_byte_of_Z.
    rewrite !Z.shiftr_div_pow2 by lia.
    set (m := 2 ^ (8 * Z.of_nat n)) in *.
    assert (Hm : 0 < m) by (apply Z.pow_pos_nonneg; lia).
    assert (Hpow : 2 ^ (8 * Z.of_nat (S n)) = m * 256).
    { unfold m. replace (8 * Z.of_nat (S n)) with (8 * Z.of_nat n + 8) by lia.
      rewrite Z.pow_add_r by lia. reflexivity. }
    rewrite Hpow, <- !Z.div_div in Hq by lia.
    assert (HA : 0 <= a / m) by (apply Z.div_pos; lia).
    assert (HB : 0 <= b / m) by (apply Z.div_pos; lia).
    pose proof (Z.div_mod (a / m) 256 ltac:(lia)) as Ea.
    pose proof (Z.div_mod (b / m) 256 ltac:(lia)) as Eb.
    pose proof (Z.mod_pos_bound (a / m) 256 ltac:(lia)) as Ra.
    pose proof (Z.mod_pos_bound (b / m) 256 ltac:(lia)) as Rb.
    destruct (N.ltb_spec (Z.to_N ((a / m) mod 256)) (Z.to_N ((b / m) mod 256)))
      as [Hlt|Hge].
    + split; [intros _|reflexivity].
      destruct (Z.le_gt_cases a b) as [|Hgt]; [assumption|].
      assert (b / m <= a / m) by (apply Z.div_le_mono; lia). lia.
    + destruct (N.eqb_spec (Z.to_N ((a / m) mod 256)) (Z.to_N ((b / m) mod 256)))
        as [Heq|Hne].
      * apply IH; try assumption. fold m. lia.
      * split; [discriminate|]. intros Hle.
        assert (a / m <= b / m) by (apply Z.div_le_mono; lia). lia.
Qed.


Lemma byte_of_Z_of_byte (b : byte) : byte_of_Z (Z_of_byte b) = b.
Proof.
  unfold byte_of_Z. pose proof (Z_of_byte_range b) as Hr.
  rewrite Z.mod_small by lia. unfold Z_of_byte. rewrite N2Z.id.
  rewrite Byte.of_to_N. reflexivity.
Qed.

Lemma byte_of_Z_mod (z : Z) : byte_of_Z (z mod 256) = byte_of_Z z.
Proof. unfold byte_of_Z. rewrite Z.mod_mod by lia. reflexivity. Qed.

Lemma Z_of_byte_testbit (b : byte) (n : Z) :
  Z.testbit (Z_of_byte b) n = (n <? 8) && Z.testbit (Z_of_byte b) n.
Proof.
  pose proof (Z_of_byte_range b) as Hr.
  rewrite <- (Z.mod_small (Z_of_byte b) (2 ^ 8)) at 1 by (change (2 ^ 8) with 256; lia).
  apply Z.testbit_mod_pow2. lia.
Qed.

Ltac byte_bits :=
  repeat match goal with
         | |- context [Z.testbit (Z_of_byte ?b) ?i] =>
             lazymatch i with
             | _ => rewrite (Z_of_byte_testbit b i)
             end
         end.

Lemma PutUint64_Uint64_byte (b0 b1 b2 b3 b4 b5 b6 b7 : byte) (k : Z) (bk : byte) :
  let v := Z.lor (Z_of_byte b7)
          (Z.lor (Z.shiftl (Z_of_byte b6) 8)
          (Z.lor (Z.shiftl (Z_of_byte b5) 16)
          (Z.lor (Z.shiftl (Z_of_byte b4) 24)
          (Z.lor (Z.shiftl (Z_of_byte b3) 32)
          (Z.lor (Z.shiftl (Z_of_byte b2) 40)
          (Z.lor (Z.shiftl (Z_of_byte b1) 48)
                 (Z.shiftl (Z_of_byte b0) 56))))))) in
  (k = 0 /\ bk = b7) \/ (k = 8 /\ bk = b6) \/ (k = 16 /\ bk = b5) \/
  (k = 24 /\ bk = b4) \/ (k = 32 /\ bk = b3) \/ (k = 40 /\ bk = b2) \/
  (k = 48 /\ bk = b1) \/ (k = 56 /\ bk = b0) ->
  byte_of_Z (Z.shiftr v k) = bk.
Proof.
  intros v Hk. rewrite <- byte_of_Z_mod, <- (byte_of_Z_of_byte bk). f_equal.
  change 256 with (2 ^ 8). apply Z.bits_inj'. intros n Hn.
  rewrite Z.testbit_mod_pow2 by lia.
  rewrite (Z_of_byte_testbit bk n).
  destruct (Z.ltb_spec n 8) as [Hlt|Hge]; [|reflexivity].
  cbn [andb]. assert (Hk0 : 0 <= k) by lia.
  rewrite Z.shiftr_spec by lia. unfold v.
  rewrite !Z.lor_spec, !Z.shiftl_spec by lia.
  rewrite (Z_of_byte_testbit b0), (Z_of_byte_testbit b1),
    (Z_of_byte_testbit b2), (Z_of_byte_testbit b3), (Z_of_byte_testbit b4),
    (Z_of_byte_testbit b5), (Z_of_byte_testbit b6), (Z_of_byte_testbit b7).
  destruct Hk as [[-> ->]|[[-> ->]|[[-> ->]|[[-> ->]|[[-> ->]|[[-> ->]|[[-> ->]|[-> ->]]]]]]]];
    decide_ltb; cbn [andb orb];
    repeat match goal with
           | |- context [Z.testbit ?a ?i] =>
               rewrite (Z.testbit_neg_r a i) by lia
           end;
    rewrite ?orb_false_r; cbn [orb]; f_equal; lia.
Qed.

(** [idToKey] is the inverse of [keyToID] on keys of eight bytes. *)
Lemma idToKey_keyToID (k : bytes) (id : Z) (w w' : World) :
  length k = 8%nat -> keyToID k w = Returns (id, w') -> idToKey id = k.
Proof.
  intros Hl. unfold keyToID, BigEndian.Uint64.
  destruct k as [|b0 [|b1 [|b2 [|b3 [|b4 [|b5 [|b6 [|b7 [|? ?]]]]]]]]];
    try discriminate Hl.
  unfold ret. intros H. injection H as <- _.
  unfold idToKey, BigEndian.PutUint64.
  pose proof (PutUint64_Uint64_byte b0 b1 b2 b3 b4 b5 b6 b7 0 b7
                ltac:(tauto)) as H0.
  cbv zeta in H0. rewrite Z.shiftr_0_r in H0. rewrite H0.
  rewrite (PutUint64_Uint64_byte b0 b1 b2 b3 b4 b5 b6 b7 56 b0) by tauto.
  rewrite (PutUint64_Uint64_byte b0 b1 b2 b3 b4 b5 b6 b7 48 b1) by tauto.
  rewrite (PutUint64_Uint64_byte b0 b1 b2 b3 b4 b5 b6 b7 40 b2) by tauto.
  rewrite (PutUint64_Uint64_byte b0 b1 b2 b3 b4 b5 b6 b7 32 b3) by tauto.
  rewrite (PutUint64_Uint64_byte b0 b1 b2 b3 b4 b5 b6 b7 24 b4) by tauto.
  rewrite (PutUint64_Uint64_byte b0 b1 b2 b3 b4 b5 b6 b7 16 b5) by tauto.
  rewrite (PutUint64_Uint64_byte b0 b1 b2 b3 b4 b5 b6 b7 8 b6) by tauto.
  reflexivity.
Qed.

(** ** The queue against the reference queue *)

Lemma ring_offset_inj (N h i j : Z) :
  0 < N -> 0 <= i < N -> 0 <= j < N ->
  (h + 1 + i) mod N = (h + 1 + j) mod N -> i = j.
Proof.
  intros HN Hi Hj E.
  assert (H : (i - j) mod N = 0).
  { replace (i - j) with ((h + 1 + i) - (h + 1 + j)) by lia.
    rewrite Zminus_mod, E, Z.sub_diag. apply Z.mod_0_l. lia. }
  apply Z.mod_divide in H; [|lia]. destruct H as [c Hc].
  assert (c = 0) by nia. lia.
Qed.

Lemma ring_tail_offset (N h t : Z) :
  0 <= h < N -> 0 <= t < N ->
  (h + (N + t - h) mod N) mod N = t.
Proof.
  intros Hh Ht. rewrite ring_distance by lia.
  destruct (Z.leb_spec h t).
  - replace (h + (t - h)) with t by lia. apply Z.mod_small. lia.
  - replace (h + (N + t - h)) with (t + 1 * N) by lia.
    rewrite Z.mod_add by lia. apply Z.mod_small. lia.
Qed.

Lemma ring_full_iff (N h t : Z) :
  0 <= h < N -> 0 <= t < N ->
  ((t + 1) mod N = h <-> (N + t - h) mod N = N - 1).
Proof.
  intros Hh Ht. rewrite ring_next, ring_distance by lia.
  destruct (Z.ltb_spec (t + 1) N), (Z.leb_spec h t); lia.
Qed.

Section Refinement.

Variable N : Z.
Hypothesis HN : 0 < N <= DefaultMaxQueueSize.
Variable d : string.

Lemma holds_id_range (q : Queue) (i : Z) :
  0 <= (head q + 1 + i) mod N <= MaxUint64.
Proof.
  pose proof (Z.mod_pos_bound (head q + 1 + i) N ltac:(lia)).
  pose proof (ring_below_MaxUint64 N HN ((head q + 1 + i) mod N)). lia.
Qed.

Lemma holds_enqueue (q : Queue) (w : World) (l : list bytes) (v : bytes) :
  holds N d q w l ->
  exists q' w',
    enqueue N q v w = Returns ((q', snd (snd (fifo_step (N - 1) l (Enq v)))), w') /\
    holds N d q' w' (fst (fifo_step (N - 1) l (Enq v))) /\
    head q' = head q /\
    (tail q' = tail q \/ tail q' = (tail q + 1) mod N).
Proof.
  intros (Ho & Hr & Hf & Hlen & Htab). pose proof Hr as [Hh Ht].
  pose proof (ring_full_iff N (head q) (tail q) Hh Ht) as Hfull.
  cbn [fifo_step]. destruct (Z.ltb_spec (Z.of_nat (length l)) (N - 1)) as [Hlt|Hge].
  - assert (Hne : (tail q + 1) mod N <> head q) by lia.
    rewrite (enqueue_ok N HN q v d w Ho Hf Hr Hne).
    eexists _, _. split; [reflexivity|]. cbn [fst].
    split; [|split; [reflexivity|right; reflexivity]].
    split; [exact Ho|]. split.
    { split; cbn [head tail set_tail]; [exact Hh|].
      apply Z.mod_pos_bound. lia. }
    split; [exact Hf|]. split.
    { cbn [head tail set_tail]. rewrite ring_len_enqueue by assumption.
      rewrite length_app. simpl length. lia. }
    assert (Hnid : (tail q + 1) mod N =
                   (head q + 1 + Z.of_nat (length l)) mod N).
    { rewrite <- Hlen.
      replace (head q + 1 + (N + tail q - head q) mod N)
        with ((head q + (N + tail q - head q) mod N) + 1) by lia.
      rewrite <- (Zplus_mod_idemp_l (head q + (N + tail q - head q) mod N) 1 N).
      rewrite ring_tail_offset by lia. reflexivity. }
    intros k v'. rewrite contents_store. cbn [head set_tail]. split.
    + intros Hk. destruct (decide (k = idToKey ((tail q + 1) mod N))) as [->|Hk'].
      * rewrite lookup_insert_eq in Hk. injection Hk as <-.
        exists (length l). split; [|rewrite Hnid; reflexivity].
        rewrite lookup_app_r, Nat.sub_diag by lia. reflexivity.
      * rewrite lookup_insert_ne in Hk by congruence.
        apply Htab in Hk as (i & Hi & ->). exists i. split; [|reflexivity].
        rewrite lookup_app_l; [exact Hi|]. eapply lookup_lt_Some, Hi.
    + intros (i & Hi & ->).
      destruct (decide (i < length l)%nat) as [Hil|Hil].
      * rewrite lookup_app_l in Hi by exact Hil.
        rewrite lookup_insert_ne.
        -- apply Htab. eauto.
        -- rewrite Hnid. intros E.
           apply idToKey_inj in E; try apply holds_id_range.
           apply ring_offset_inj in E; lia.
      * rewrite lookup_app_r in Hi by lia.
        destruct (i - length l)%nat as [|?] eqn:Ei; [|destruct n; discriminate].
        injection Hi as <-. assert (i = length l) by lia. subst i.
        rewrite <- Hnid. apply lookup_insert_eq.
  - pose proof (Z.mod_pos_bound (N + tail q - head q) N ltac:(lia)) as Hb.
    assert (Hfl : (tail q + 1) mod N = head q) by lia.
    destruct Ho as [Hop Hdb].
    exists q, w. split.
    + unfold enqueue, bind. rewrite Hop. cbn [negb].
      rewrite umod_nonzero by lia. rewrite (add64_small N HN) by lia.
      rewrite Hfl, Z.eqb_refl. reflexivity.
    + cbn [fst]. split; [|auto].
      exact (conj (conj Hop Hdb) (conj Hr (conj Hf (conj Hlen Htab)))).
Qed.

Lemma holds_dequeue (q : Queue) (w : World) (l : list bytes) :
  holds N d q w l ->
  exists q' w',
    dequeue N q w =
      Returns ((q', fst (snd (fifo_step (N - 1) l Deq)),
                    snd (snd (fifo_step (N - 1) l Deq))), w') /\
    holds N d q' w' (fst (fifo_step (N - 1) l Deq)) /\
    tail q' = tail q /\
    (head q' = head q \/ (head q <> tail q /\ head q' = (head q + 1) mod N)).
Proof.
  intros (Ho & Hr & Hf & Hlen & Htab). pose proof Hr as [Hh Ht].
  cbn [fifo_step]. destruct l as [|v l].
  - assert (E : head q = tail q).
    { apply (Length_zero_iff N q Hr). exact Hlen. }
    exists q, w. split.
    + unfold dequeue, bind. destruct Ho as [Hop Hdb]. rewrite Hop. cbn [negb].
      rewrite umod_nonzero by lia.
      rewrite (getValueByID_empty N HN q _ w Hr E). reflexivity.
    + cbn [fst]. split; [|auto].
      exact (conj Ho (conj Hr (conj Hf (conj Hlen Htab)))).
  - simpl length in Hlen.
    assert (Hne : head q <> tail q).
    { intros E. apply (Length_zero_iff N q Hr) in E. lia. }
    assert (Hv : leveldb.contents d w !! idToKey ((head q + 1) mod N) = Some v).
    { apply Htab. exists 0%nat. split; [reflexivity|].
      rewrite Z.add_0_r. reflexivity. }
    rewrite (dequeue_ok N HN q v d w Ho Hf Hr Hne Hv).
    eexists _, _. split; [reflexivity|]. cbn [fst snd].
    split; [|split; [reflexivity|right; split; [exact Hne|reflexivity]]].
    split; [exact Ho|]. split.
    { split; cbn [head tail set_head]; [|exact Ht].
      apply Z.mod_pos_bound. lia. }
    split; [exact Hf|]. split.
    { cbn [head tail set_head]. rewrite ring_len_dequeue by (assumption || lia).
      lia. }
    assert (Hshift : forall i : nat,
      ((head q + 1) mod N + 1 + Z.of_nat i) mod N =
      (head q + 1 + Z.of_nat (S i)) mod N).
    { intros i.
      replace ((head q + 1) mod N + 1 + Z.of_nat i)
        with ((head q + 1) mod N + (1 + Z.of_nat i)) by lia.
      rewrite Zplus_mod_idemp_l. f_equal. lia. }
    assert (Hlt : Z.of_nat (S (length l)) < N).
    { rewrite <- Hlen. apply Z.mod_pos_bound. lia. }
    intros k v'. rewrite contents_store. cbn [head set_head]. split.
    + intros Hk.
      destruct (decide (k = idToKey ((head q + 1) mod N))) as [->|Hk'].
      * rewrite lookup_delete_eq in Hk. discriminate.
      * rewrite lookup_delete_ne in Hk by congruence.
        apply Htab in Hk as (i & Hi & ->). destruct i as [|i].
        -- rewrite Z.add_0_r in Hk'. contradiction.
        -- exists i. split; [exact Hi|]. rewrite Hshift. reflexivity.
    + intros (i & Hi & ->). rewrite Hshift.
      pose proof (lookup_lt_Some _ _ _ Hi) as Hil.
      rewrite lookup_delete_ne.
      * apply Htab. exists (S i). split; [exact Hi|reflexivity].
      * intros E. apply idToKey_inj in E; try apply holds_id_range.
        -- replace ((head q + 1) mod N) with ((head q + 1 + 0) mod N) in E
             by (f_equal; lia).
           apply ring_offset_inj in E; lia.
        -- replace (head q + 1) with (head q + 1 + 0) by lia.
           apply holds_id_range.
Qed.

End Refinement.


Lemma enqueues_nonneg (ops : list op) : 0 <= enqueues ops.
Proof. induction ops as [|[v|] ops IH]; simpl; lia. Qed.

Section Reopen.

Variable N : Z.
Hypothesis HN : 0 < N <= DefaultMaxQueueSize.
Variable d : string.

Lemma run_trace_holds (ops : list op) (q : Queue) (w : World) (l : list bytes) :
  holds N d q w l ->
  exists q' w',
    run_trace N q ops w =
      Returns ((q', snd (fifo_run (N - 1) l ops)), w') /\
    holds N d q' w' (fst (fifo_run (N - 1) l ops)) /\
    (head q <= tail q -> tail q + enqueues ops < N ->
     head q' <= tail q' /\ tail q' <= tail q + enqueues ops).
Proof.
  revert q w l. induction ops as [|o ops IH]; intros q w l Hh.
  - exists q, w. simpl. split; [reflexivity|]. split; [exact Hh|]. lia.
  - pose proof Hh as (_ & [Hrh Hrt] & _).
    cbn [fifo_run]. destruct o as [v|].
    + destruct (holds_enqueue N HN d q w l v Hh)
        as (q1 & w1 & Hrun & Hh1 & Hhd & Htl).
      destruct (fifo_step (N - 1) l (Enq v)) as [l1 [b e]] eqn:Es.
      cbn [fst snd] in *.
      destruct (IH q1 w1 l1 Hh1) as (q' & w' & Hrun' & Hh' & Hnw).
      destruct (fifo_run (N - 1) l1 ops) as [l2 rs] eqn:Er.
      cbn [fst snd] in *. exists q', w'. cbn [run_trace]. unfold bind.
      rewrite Hrun, Hrun'. split.
      * unfold fifo_step in Es.
        destruct (Z.of_nat (length l) <? N - 1); injection Es as <- <- <-;
          reflexivity.
      * split; [exact Hh'|]. cbn [enqueues]. intros Hle Hb.
        assert (Hq1 : head q1 <= tail q1 /\ tail q1 <= tail q + 1).
        { rewrite Hhd. destruct Htl as [->| ->]; [lia|].
          rewrite Z.mod_small by (pose proof (enqueues_nonneg ops); lia). lia. }
        destruct Hnw; lia.
    + destruct (holds_dequeue N HN d q w l Hh)
        as (q1 & w1 & Hrun & Hh1 & Htl & Hhd).
      destruct (fifo_step (N - 1) l Deq) as [l1 [b e]] eqn:Es.
      cbn [fst snd] in *.
      destruct (IH q1 w1 l1 Hh1) as (q' & w' & Hrun' & Hh' & Hnw).
      destruct (fifo_run (N - 1) l1 ops) as [l2 rs] eqn:Er.
      cbn [fst snd] in *. exists q', w'. cbn [run_trace]. unfold bind.
      rewrite Hrun, Hrun'. split; [reflexivity|].
      split; [exact Hh'|]. cbn [enqueues]. intros Hle Hb.
      assert (Hq1 : head q1 <= tail q1).
      { rewrite Htl. destruct Hhd as [->|[Hne ->]]; [lia|].
        rewrite Z.mod_small by lia. lia. }
      destruct Hnw; lia.
Qed.

Lemma holds_fresh (w : World) :
  leveldb.contents d w = ∅ -> faults w = [] ->
  holds N d (mkQueue d (Some (leveldb.mkDB d false)) 0 0 true)
        (leveldb.store d ∅ w) [].
Proof.
  intros Hc Hf. split; [split; reflexivity|]. split; [split; simpl; lia|].
  split; [exact Hf|]. split.
  - simpl. rewrite Z.add_0_r, Z.sub_0_r. apply Z.mod_same. lia.
  - intros k v. rewrite contents_store, lookup_empty. split; [discriminate|].
    intros (i & Hi & _). discriminate.
Qed.


End Reopen.


(** ** The codec *)

(** X1.  Every [uint64] identifier is encoded in eight bytes and decoded
    back to itself by [keyToID]; so two identifiers with the same key
    are equal. *)
Theorem codec_id_roundtrip (id : Z) :
  0 <= id <= MaxUint64 ->
  length (idToKey id) = 8%nat /\
  (forall w, keyToID (idToKey id) w = Returns (id, w)) /\
  (forall id', 0 <= id' <= MaxUint64 -> idToKey id' = idToKey id -> id' = id).
Proof.
  intros Hid. split; [reflexivity|]. split.
  - intros w. apply keyToID_idToKey. exact Hid.
  - intros id' Hid' E. apply idToKey_inj; assumption.
Qed.

(** X2.  Every key of exactly eight bytes decodes to a [uint64]
    identifier whose key it is: on such keys [idToKey] undoes
    [keyToID]. *)
Theorem codec_key_roundtrip (k : bytes) :
  length k = 8%nat ->
  exists id,
    0 <= id <= MaxUint64 /\
    (forall w, keyToID k w = Returns (id, w)) /\
    idToKey id = k.
Proof.
  intros Hl. destruct (keyToID_long k ltac:(lia)) as [id Hid].
  exists id. split; [|split].
  - apply (keyToID_range k id quiet_world quiet_world (Hid _)).
  - exact Hid.
  - apply (idToKey_keyToID k id quiet_world quiet_world Hl (Hid _)).
Qed.

(** X3.  [keyToID] panics on a key of fewer than eight bytes; on a longer
    key it decodes the first eight bytes, whatever follows, and the
    identifier is a [uint64]. *)
Theorem keyToID_edges (k : bytes) (w : World) :
  ((length k < 8)%nat -> keyToID k w = Panics) /\
  ((8 <= length k)%nat ->
   exists id,
     0 <= id <= MaxUint64 /\
     keyToID k w = Returns (id, w) /\
     keyToID (take 8 k) w = Returns (id, w)).
Proof.
  split.
  - intros Hl. unfold keyToID, BigEndian.Uint64.
    destruct k as [|? [|? [|? [|? [|? [|? [|? [|? ?]]]]]]]];
      simpl in Hl; try reflexivity; lia.
  - intros Hl. destruct (keyToID_long k Hl) as [id Hid].
    exists id. split; [apply (keyToID_range k id w w (Hid w))|].
    split; [apply Hid|]. rewrite <- (Hid w).
    unfold keyToID, BigEndian.Uint64.
    destruct k as [|? [|? [|? [|? [|? [|? [|? [|? ?]]]]]]]];
      simpl in Hl; try lia. reflexivity.
Qed.

(** X4.  The byte order of the keys, which is the order of the store's
    iterator, is the numeric order of the identifiers. *)
Theorem idToKey_order (a b : Z) :
  0 <= a <= MaxUint64 -> 0 <= b <= MaxUint64 ->
  (bytes_le (idToKey a) (idToKey b) <-> a <= b).
Proof.
  unfold MaxUint64. intros Ha Hb. rewrite !idToKey_be_bytes.
  apply be_bytes_le; [lia|lia|].
  change (2 ^ (8 * Z.of_nat 8)) with (2 ^ 64).
  rewrite !Z.div_small by lia. reflexivity.
Qed.

(** ** Failures of the store *)

Lemma io_fault (w : World) (msg : string) (fs : list (option string)) :
  faults w = Some msg :: fs ->
  io w = Returns (Some (ErrIO msg), mkWorld (disk w) fs).
Proof. intros E. unfold io. rewrite E. reflexivity. Qed.

Lemma io_pass (w : World) (fs : list (option string)) :
  faults w = None :: fs -> io w = Returns (None, mkWorld (disk w) fs).
Proof. intros E. unfold io. rewrite E. reflexivity. Qed.

Lemma set_db_id (q : Queue) : set_db (db q) q = q.
Proof. destruct q; reflexivity. Qed.

(** X5.  When the store refuses the write, [enqueue] returns the store's
    error; the queue is what it was and nothing was written. *)
Theorem enqueue_write_failure (N : Z) (q : Queue) (v : bytes) (w : World)
        (d : string) (msg : string) (fs : list (option string)) :
  0 < N ->
  isOpen q = true ->
  db q = Some (leveldb.mkDB d false) ->
  add64 (tail q) 1 mod N <> head q ->
  faults w = Some msg :: fs ->
  enqueue N q v w = Returns ((q, Some (ErrIO msg)), mkWorld (disk w) fs).
Proof.
  intros HN Ho Hdb Hne Hf. unfold enqueue, bind. rewrite Ho. cbn [negb].
  rewrite umod_nonzero by lia.
  destruct (Z.eqb_spec (add64 (tail q) 1 mod N) (head q)); [contradiction|].
  unfold leveldb.Put, bind. rewrite Hdb. cbn [leveldb.closed].
  rewrite (io_fault w msg fs Hf). reflexivity.
Qed.


(** ** Lookups around an enqueue and a dequeue *)

(** X7.  After a successful [enqueue], the lookup of the new [tail]
    returns the payload that was enqueued; [head] has not moved. *)
Theorem lookup_after_enqueue (N : Z) (q : Queue) (v : bytes) (w : World)
        (d : string) :
  0 < N <= DefaultMaxQueueSize ->
  opened q d -> faults w = [] -> in_ring N q ->
  (tail q + 1) mod N <> head q ->
  exists q' w',
    enqueue N q v w = Returns ((q', None), w') /\
    head q' = head q /\ tail q' = (tail q + 1) mod N /\
    getValueByID N q' (tail q') w' = Returns ((v, None), w').
Proof.
  intros HN Ho Hf Hr Hne. pose proof Hr as [Hh Ht].
  rewrite (enqueue_ok N HN q v d w Ho Hf Hr Hne).
  eexists _, _. split; [reflexivity|]. split; [reflexivity|].
  split; [reflexivity|].
  set (t' := (tail q + 1) mod N).
  assert (Ht' : 0 <= t' < N) by (apply Z.mod_pos_bound; lia).
  rewrite (getValueByID_valid N HN).
  - set (w' := leveldb.store d _ w).
    rewrite (getValue_spec (set_tail t' q) _ d w' w' None (proj2 Ho)
               (io_quiet w' Hf)).
    unfold w'. rewrite contents_store. cbn [tail set_tail].
    rewrite lookup_insert_eq. reflexivity.
  - split; cbn [head tail set_tail]; assumption.
  - unfold valid_id. cbn [head tail set_tail].
    split; [intros E; apply Hne; symmetry; exact E|]. split; lia.
Qed.

(** X8.  After a successful [dequeue] the entry is gone from the table,
    and the lookup of the identifier just dequeued, which is the new
    [head], fails with [ErrEmpty] or [ErrOutOfBounds] before it reaches
    the store. *)
Theorem lookup_after_dequeue (N : Z) (q : Queue) (v : bytes) (w : World)
        (d : string) :
  0 < N <= DefaultMaxQueueSize ->
  opened q d -> faults w = [] -> in_ring N q -> head q <> tail q ->
  leveldb.contents d w !! idToKey ((head q + 1) mod N) = Some v ->
  exists q' w',
    dequeue N q w = Returns ((q', v, None), w') /\
    head q' = (head q + 1) mod N /\ tail q' = tail q /\
    leveldb.contents d w' !! idToKey (head q') = None /\
    getValueByID N q' (head q') w' =
      Returns (([], Some (if head q' =? tail q'
                          then ErrEmpty else ErrOutOfBounds)), w').
Proof.
  intros HN Ho Hf Hr Hne Hv. pose proof Hr as [Hh Ht].
  rewrite (dequeue_ok N HN q v d w Ho Hf Hr Hne Hv).
  eexists _, _. split; [reflexivity|]. split; [reflexivity|].
  split; [reflexivity|]. cbn [head tail set_head].
  set (h' := (head q + 1) mod N).
  assert (Hh' : 0 <= h' < N) by (apply Z.mod_pos_bound; lia).
  split; [rewrite contents_store; apply lookup_delete_eq|].
  assert (Hr' : in_ring N (set_head h' q)) by (split; assumption).
  destruct (Z.eqb_spec h' (tail q)) as [E|E].
  - apply (getValueByID_empty N HN); [exact Hr'|exact E].
  - rewrite (getValueByID_nonempty N HN) by (assumption || exact E).
    cbn [head tail set_head].
    destruct (Z.ltb_spec h' (tail q)).
    + rewrite (proj2 (Z.leb_le h' h')) by lia. reflexivity.
    + rewrite (proj2 (Z.ltb_lt (tail q) h')) by lia.
      rewrite (proj2 (Z.leb_le h' h')) by lia. reflexivity.
Qed.

(** ** The queue as a bounded FIFO queue *)

(** X9.  On a store that does not fail, a queue opened on an empty
    directory answers any interleaving of enqueues and dequeues, of any
    length and across any number of wrap-arounds of the identifiers,
    exactly as a list-based FIFO queue of capacity [MaxQueueSize - 1]
    does: the same payloads in the same order, [ErrFull] and [ErrEmpty]
    at the same places. *)
Theorem queue_refines_fifo (N : Z) (dataDir : string) (w : World)
        (ops : list op) :
  0 < N <= DefaultMaxQueueSize ->
  leveldb.contents dataDir w = ∅ ->
  faults w = [] ->
  exists q0 w0 q' w',
    OpenQueue dataDir w = Returns ((q0, None), w0) /\
    run_trace N q0 ops w0 =
      Returns ((q', snd (fifo_run (N - 1) [] ops)), w').
Proof.
  intros HN Hc Hf.
  destruct (run_trace_holds N HN dataDir ops _ _ []
              (holds_fresh N HN dataDir w Hc Hf)) as (q' & w' & Hrun & _).
  eexists _, _, q', w'. split; [apply OpenQueue_fresh; assumption|].
  exact Hrun.
Qed.


(** ** Opening, closing, dropping *)





(** X12.  When the store cannot be opened, [OpenQueue] returns the error
    together with a closed queue that has no handle.  On that queue
    [enqueue] and [dequeue] fail with [ErrDBClosed], [Close] succeeds and
    [Length] is [0]: nothing dereferences the missing handle. *)
Theorem open_failure (N : Z) (dataDir : string) (w : World)
        (msg : string) (fs : list (option string)) :
  0 < N <= MaxUint64 ->
  faults w = Some msg :: fs ->
  let q := mkQueue dataDir None 0 0 false in
  OpenQueue dataDir w = Returns ((q, Some (ErrIO msg)), mkWorld (disk w) fs) /\
  forall (v : bytes) (w2 : World),
    enqueue N q v w2 = Returns ((q, Some ErrDBClosed), w2) /\
    dequeue N q w2 = Returns ((q, [], Some ErrDBClosed), w2) /\
    Close q w2 = Returns ((q, None), w2) /\
    Length N q w2 = Returns (0, w2).
Proof.
  intros HN Hf q. split.
  - unfold OpenQueue, leveldb.OpenFile, bind.
    rewrite (io_fault w msg fs Hf). reflexivity.
  - intros v w2. repeat split.
    unfold Length. simpl. rewrite umod_nonzero by lia.
    unfold sub64, add64, wrap64.
    rewrite Z.add_0_r, Z.sub_0_r, Z.mod_mod by lia.
    unfold MaxUint64 in HN. rewrite (Z.mod_small N) by lia.
    rewrite Z.mod_same by lia. reflexivity.
Qed.

Lemma seek_pass (it : leveldb.Iterator) (target : option bytes) (w : World)
      (fs : list (option string)) :
  leveldb.iter_err it = None -> faults w = None :: fs ->
  leveldb.seek it target w =
  Returns ((leveldb.mkIter (leveldb.keys it) target None,
            match target with Some _ => true | None => false end),
           mkWorld (disk w) fs).
Proof.
  intros He Hf. unfold leveldb.seek, bind. rewrite He, (io_pass w fs Hf).
  destruct target; reflexivity.
Qed.

Lemma seek_fault (it : leveldb.Iterator) (target : option bytes) (w : World)
      (msg : string) (fs : list (option string)) :
  leveldb.iter_err it = None -> faults w = Some msg :: fs ->
  leveldb.seek it target w =
  Returns ((leveldb.mkIter (leveldb.keys it) None (Some (ErrIO msg)), false),
           mkWorld (disk w) fs).
Proof.
  intros He Hf. unfold leveldb.seek, bind. rewrite He, (io_fault w msg fs Hf).
  reflexivity.
Qed.

(** X13.  An error of the iterator during recovery is returned by
    [OpenQueue] together with a queue that is marked open.  When the
    first seek fails neither counter is set; when only the second seek
    fails, [head] is set from the first key and [tail] keeps its
    initial [0]. *)
Theorem open_iterator_error (dataDir : string) (w : World)
        (msg : string) (fs : list (option string)) :
  (faults w = None :: Some msg :: fs ->
   OpenQueue dataDir w =
     Returns ((mkQueue dataDir (Some (leveldb.mkDB dataDir false)) 0 0 true,
               Some (ErrIO msg)),
              leveldb.store dataDir (leveldb.contents dataDir w)
                (mkWorld (disk w) fs))) /\
  (forall kf rest id,
     faults w = None :: None :: Some msg :: fs ->
     leveldb.sorted_keys (leveldb.contents dataDir w) = kf :: rest ->
     (forall w0, keyToID kf w0 = Returns (id, w0)) ->
     OpenQueue dataDir w =
       Returns ((mkQueue dataDir (Some (leveldb.mkDB dataDir false))
                         (sub64 id 1) 0 true,
                 Some (ErrIO msg)),
                leveldb.store dataDir (leveldb.contents dataDir w)
                  (mkWorld (disk w) fs))).
Proof.
  assert (Hstart : forall f,
    faults w = None :: f ->
    OpenQueue dataDir w =
    init (mkQueue dataDir (Some (leveldb.mkDB dataDir false)) 0 0 true)
         (leveldb.store dataDir (leveldb.contents dataDir w)
            (mkWorld (disk w) f))).
  { intros f Hf. unfold OpenQueue, leveldb.OpenFile, bind.
    rewrite (io_pass w _ Hf). reflexivity. }
  split.
  - intros Hf. rewrite (Hstart _ Hf).
    unfold init, bind, leveldb.NewIterator, leveldb.First, leveldb.Last.
    cbn [db leveldb.closed leveldb.dir].
    erewrite seek_fault; [|reflexivity|reflexivity].
    reflexivity.
  - intros kf rest id Hf Hkeys Hid. rewrite (Hstart _ Hf).
    unfold init, bind, leveldb.NewIterator, leveldb.First, leveldb.Last.
    cbn [db leveldb.closed leveldb.dir].
    rewrite contents_store.
    change (leveldb.contents dataDir (mkWorld (disk w) (None :: Some msg :: fs)))
      with (leveldb.contents dataDir w).
    rewrite Hkeys.
    erewrite seek_pass; [|reflexivity|reflexivity].
    cbn [leveldb.keys List.head]. cbv iota beta.
    unfold leveldb.Key at 1. cbn [leveldb.cur default]. rewrite Hid.
    unfold ret at 1.
    erewrite seek_fault; [|reflexivity|reflexivity].
    reflexivity.
Qed.

(** X14.  The three outcomes of [Drop] on an open queue.  When the store
    fails to close, [Drop] (like [Close]) returns that error, the queue
    stays open with its counters, and the directory is not touched.
    When the store closes and the removal fails, the error is returned,
    the queue is closed and reset, and the directory is still on disk.
    When both succeed, the queue is closed and reset and the directory is
    gone. *)
Theorem drop_outcomes (q : Queue) (w : World) (d : string) :
  isOpen q = true ->
  db q = Some (leveldb.mkDB d false) ->
  let closed_q := mkQueue (DataDir q) (Some (leveldb.mkDB d true)) 0 0 false in
  (forall msg fs,
     faults w = Some msg :: fs ->
     Close q w = Returns ((q, Some (ErrIO msg)), mkWorld (disk w) fs) /\
     Drop q w = Returns ((q, Some (ErrIO msg)), mkWorld (disk w) fs)) /\
  (forall msg fs,
     faults w = None :: Some msg :: fs ->
     Drop q w = Returns ((closed_q, Some (ErrIO msg)), mkWorld (disk w) fs)) /\
  (forall fs,
     faults w = [] \/ faults w = None :: None :: fs ->
     exists w',
       Drop q w = Returns ((closed_q, None), w') /\
       disk w' = delete (DataDir q) (disk w)).
Proof.
  intros Ho Hdb closed_q.
  assert (Hfail : forall msg fs, faults w = Some msg :: fs ->
            Close q w = Returns ((q, Some (ErrIO msg)), mkWorld (disk w) fs)).
  { intros msg fs Hf. unfold Close, leveldb.Close, bind.
    rewrite Ho, Hdb. cbn [negb leveldb.closed].
    rewrite (io_fault w msg fs Hf). cbv iota beta. unfold ret.
    rewrite <- Hdb, set_db_id. reflexivity. }
  assert (Hok : forall w1, io w = Returns (None, w1) ->
            Close q w = Returns ((closed_q, None), w1)).
  { intros w1 Hio. unfold Close, leveldb.Close, bind.
    rewrite Ho, Hdb. cbn [negb leveldb.closed]. rewrite Hio. reflexivity. }
  split; [|split].
  - intros msg fs Hf. split; [apply Hfail; exact Hf|].
    unfold Drop, bind. rewrite (Hfail msg fs Hf). reflexivity.
  - intros msg fs Hf. unfold Drop, bind.
    rewrite (Hok _ (io_pass w _ Hf)). cbv iota beta.
    unfold os.RemoveAll, bind.
    rewrite (io_fault (mkWorld (disk w) (Some msg :: fs)) msg fs eq_refl).
    reflexivity.
  - intros fs [Hf|Hf]; unfold Drop, bind.
    + rewrite (Hok _ (io_quiet w Hf)). cbv iota beta.
      unfold os.RemoveAll, bind. rewrite (io_quiet w Hf).
      eexists. split; reflexivity.
    + rewrite (Hok _ (io_pass w _ Hf)). cbv iota beta.
      unfold os.RemoveAll, bind.
      rewrite (io_pass (mkWorld (disk w) (None :: fs)) fs eq_refl).
      eexists. split; reflexivity.
Qed.

(** ** The object variants *)

(** X15.  [DequeueObject] decodes after the entry has been taken out:
    when the payload does not decode, the error of the decoder is
    returned, yet [head] has advanced and the entry is deleted from the
    store; the payload is lost. *)
Theorem DequeueObject_decode_failure (N : Z) (T : Type)
        (gobDecode : bytes -> T -> T * option error)
        (q : Queue) (target target' : T) (v : bytes) (e : error)
        (w : World) (d : string) :
  0 < N <= DefaultMaxQueueSize ->
  opened q d -> faults w = [] -> in_ring N q -> head q <> tail q ->
  leveldb.contents d w !! idToKey ((head q + 1) mod N) = Some v ->
  gobDecode v target = (target', Some e) ->
  exists q' w',
    DequeueObject N T gobDecode q target w =
      Returns ((q', target', Some e), w') /\
    head q' = (head q + 1) mod N /\
    leveldb.contents d w' !! idToKey ((head q + 1) mod N) = None.
Proof.
  intros HN Ho Hf Hr Hne Hv Hdec. unfold DequeueObject, bind.
  rewrite (dequeue_ok N HN q v d w Ho Hf Hr Hne Hv). rewrite Hdec.
  eexists _, _. split; [reflexivity|]. split; [reflexivity|].
  rewrite contents_store. apply lookup_delete_eq.
Qed.

(** X16.  An object goes through the queue unchanged whenever the decoder
    undoes the encoder on it: on a store that does not fail,
    [EnqueueObject] on a freshly opened empty queue followed by
    [DequeueObject] leaves the object in the target. *)
Theorem object_roundtrip (N : Z) (T : Type)
        (gobEncode : T -> bytes * option error)
        (gobDecode : bytes -> T -> T * option error)
        (dataDir : string) (w : World) (x target : T) (buffer : bytes) :
  1 < N <= DefaultMaxQueueSize ->
  leveldb.contents dataDir w = ∅ ->
  faults w = [] ->
  gobEncode x = (buffer, None) ->
  gobDecode buffer target = (x, None) ->
  exists q0 w0 q1 w1 q2 w2,
    OpenQueue dataDir w = Returns ((q0, None), w0) /\
    EnqueueObject N T gobEncode q0 x w0 = Returns ((q1, None), w1) /\
    DequeueObject N T gobDecode q1 target w1 = Returns ((q2, x, None), w2).
Proof.
  intros HN Hc Hf Henc Hdec.
  assert (HN' : 0 < N <= DefaultMaxQueueSize) by lia.
  pose proof (holds_fresh N HN' dataDir w Hc Hf) as Hh0.
  destruct (holds_enqueue N HN' dataDir _ _ [] buffer Hh0)
    as (q1 & w1 & Hrun1 & Hh1 & _).
  cbn [fifo_step length] in Hrun1, Hh1.
  rewrite (proj2 (Z.ltb_lt (Z.of_nat 0) (N - 1))) in Hrun1, Hh1 by lia.
  cbn [fst snd app] in Hrun1, Hh1.
  destruct (holds_dequeue N HN' dataDir q1 w1 _ Hh1)
    as (q2 & w2 & Hrun2 & _).
  cbn [fifo_step fst snd] in Hrun2.
  eexists _, _, q1, w1, q2, w2.
  split; [apply OpenQueue_fresh; assumption|]. split.
  - unfold EnqueueObject. rewrite Henc. exact Hrun1.
  - unfold DequeueObject, bind. rewrite Hrun2, Hdec. reflexivity.
Qed.

(** ** What an operation changes, on any store *)

Lemma io_disk (w w' : World) (e : option error) :
  io w = Returns (e, w') -> disk w' = disk w.
Proof. intros H. apply io_faults in H as [H _]. exact H. Qed.

Lemma getValue_disk (q : Queue) (id : Z) (w w' : World)
      (r : bytes * option error) :
  getValue q id w = Returns (r, w') ->
  disk w' = disk w /\
  match snd r with
  | Some _ => fst r = []
  | None => exists d, db q = Some (leveldb.mkDB d false) /\
                      leveldb.contents d w !! idToKey id = Some (fst r)
  end.
Proof.
  unfold getValue, leveldb.Get, bind.
  destruct (db q) as [[d c]|]; [|discriminate]. cbn [leveldb.closed leveldb.dir].
  destruct c.
  { intros H. injection H as <- <-. cbn [fst snd]. auto. }
  destruct (io w) as [[e w1]|] eqn:Hio; [|discriminate].
  pose proof (io_disk _ _ _ Hio) as Hd.
  destruct e as [e|]; cbv iota beta.
  { intros H. injection H as <- <-. cbn [fst snd]. auto. }
  destruct (leveldb.contents d w1 !! idToKey id) as [x|] eqn:Ex;
    intros H; injection H as <- <-; cbn [fst snd]; split; auto.
  exists d. split; [reflexivity|].
  rewrite <- Ex. unfold leveldb.contents. rewrite Hd. reflexivity.
Qed.

Lemma getValueByID_disk (N : Z) (q : Queue) (id : Z) (w w' : World)
      (r : bytes * option error) :
  getValueByID N q id w = Returns (r, w') ->
  disk w' = disk w /\
  match snd r with
  | Some _ => fst r = []
  | None => exists d, db q = Some (leveldb.mkDB d false) /\
                      leveldb.contents d w !! idToKey id = Some (fst r)
  end.
Proof.
  unfold getValueByID, Length, umod, bind.
  destruct (N =? 0); [discriminate|]. unfold ret at 1.
  destruct (_ =? 0).
  { intros H. injection H as <- <-. cbn [fst snd]. auto. }
  destruct (head q <? tail q).
  - destruct ((id <=? head q) || (tail q <? id)).
    + intros H. injection H as <- <-. cbn [fst snd]. auto.
    + apply getValue_disk.
  - destruct (tail q <? head q); [|apply getValue_disk].
    destruct ((tail q <? id) && (id <=? head q)).
    + intros H. injection H as <- <-. cbn [fst snd]. auto.
    + apply getValue_disk.
Qed.

(** X17.  Errors are atomic, whatever the store does: an [enqueue] or a
    [dequeue] that returns an error leaves the queue, and every table on
    disk, exactly as they were, and a failed [dequeue] returns no
    payload. *)
Theorem errors_are_atomic (N : Z) (q : Queue) (w : World) :
  (forall v q' e w',
     enqueue N q v w = Returns ((q', Some e), w') ->
     q' = q /\ disk w' = disk w) /\
  (forall q' v e w',
     dequeue N q w = Returns ((q', v, Some e), w') ->
     q' = q /\ v = [] /\ disk w' = disk w).
Proof.
  split.
  - intros v q' e w'. unfold enqueue, umod, bind.
    destruct (negb (isOpen q)).
    { intros H. injection H as <- _ <-. auto. }
    destruct (N =? 0); [discriminate|]. unfold ret at 1.
    destruct (_ =? head q).
    { intros H. injection H as <- _ <-. auto. }
    unfold leveldb.Put, bind.
    destruct (db q) as [[d c]|]; [|discriminate].
    cbn [leveldb.closed leveldb.dir]. destruct c.
    { intros H. injection H as <- _ <-. auto. }
    destruct (io w) as [[e1 w1]|] eqn:Hio; [|discriminate].
    pose proof (io_disk _ _ _ Hio) as Hd.
    destruct e1 as [e1|]; cbv iota beta.
    + intros H. injection H as <- _ <-. auto.
    + unfold leveldb.update, ret. discriminate.
  - intros q' v e w'. unfold dequeue, umod, bind.
    destruct (negb (isOpen q)).
    { intros H. injection H as <- <- _ <-. auto. }
    destruct (N =? 0); [discriminate|]. unfold ret at 1.
    destruct (getValueByID N q _ w) as [[[x ex] w1]|] eqn:Eg; [|discriminate].
    apply getValueByID_disk in Eg as [Hd1 _]. cbv iota beta.
    destruct ex as [ex|].
    { intros H. injection H as <- <- _ <-. auto. }
    unfold leveldb.Delete, bind.
    destruct (db q) as [[d c]|]; [|discriminate].
    cbn [leveldb.closed leveldb.dir]. destruct c.
    { intros H. injection H as <- <- _ <-. auto. }
    destruct (io w1) as [[e1 w2]|] eqn:Hio; [|discriminate].
    pose proof (io_disk _ _ _ Hio) as Hd.
    destruct e1 as [e1|]; cbv iota beta.
    + intros H. injection H as <- <- _ <-. split; [reflexivity|].
      split; [reflexivity|congruence].
    + unfold leveldb.update, ret. discriminate.
Qed.

(** X18.  What a success means, whatever else the store does.  An
    [enqueue] that returns [nil] has advanced [tail] by one position of
    the ring, not onto [head], and has stored the payload under the key
    of the new [tail], leaving every other entry alone.  A [dequeue] that
    returns [nil] has advanced [head] by one position, and has returned
    and deleted the entry that the table held under the key of the new
    [head], leaving every other entry alone. *)
Theorem successes_are_exact (N : Z) (q : Queue) (w : World) :
  (forall v q' w',
     enqueue N q v w = Returns ((q', None), w') ->
     let nextID := add64 (tail q) 1 mod N in
     exists d,
       db q = Some (leveldb.mkDB d false) /\
       nextID <> head q /\
       q' = set_tail nextID q /\
       leveldb.contents d w' = <[idToKey nextID := v]> (leveldb.contents d w)) /\
  (forall q' v w',
     dequeue N q w = Returns ((q', v, None), w') ->
     let nextID := add64 (head q) 1 mod N in
     exists d,
       db q = Some (leveldb.mkDB d false) /\
       q' = set_head nextID q /\
       leveldb.contents d w !! idToKey nextID = Some v /\
       leveldb.contents d w' = delete (idToKey nextID) (leveldb.contents d w)).
Proof.
  split.
  - intros v q' w'. unfold enqueue, umod, bind.
    destruct (negb (isOpen q)); [discriminate|].
    destruct (N =? 0); [discriminate|]. unfold ret at 1.
    destruct (Z.eqb_spec (add64 (tail q) 1 mod N) (head q)) as [|Hne];
      [discriminate|].
    unfold leveldb.Put, bind.
    destruct (db q) as [[d c]|]; [|discriminate].
    cbn [leveldb.closed leveldb.dir]. destruct c; [discriminate|].
    destruct (io w) as [[e1 w1]|] eqn:Hio; [|discriminate].
    destruct e1 as [e1|]; cbv iota beta; [discriminate|].
    unfold leveldb.update, ret. intros H. injection H as <- <-.
    cbv zeta. exists d. split; [reflexivity|]. split; [exact Hne|].
    split; [reflexivity|].
    rewrite contents_store, (contents_io d w w1 _ Hio). reflexivity.
  - intros q' v w'. unfold dequeue, umod, bind.
    destruct (negb (isOpen q)); [discriminate|].
    destruct (N =? 0); [discriminate|]. unfold ret at 1.
    destruct (getValueByID N q _ w) as [[[x ex] w1]|] eqn:Eg; [|discriminate].
    apply getValueByID_disk in Eg as [Hd1 Hx]. cbv iota beta.
    destruct ex as [ex|]; [discriminate|]. cbn [fst snd] in Hx.
    destruct Hx as (d & Hdb & Hx).
    unfold leveldb.Delete, bind. rewrite Hdb.
    cbn [leveldb.closed leveldb.dir].
    destruct (io w1) as [[e1 w2]|] eqn:Hio; [|discriminate].
    destruct e1 as [e1|]; cbv iota beta; [discriminate|].
    unfold leveldb.update, ret. intros H. injection H as <- <- <-.
    cbv zeta. exists d. split; [reflexivity|]. split; [reflexivity|].
    split; [exact Hx|].
    rewrite contents_store, (contents_io d w1 w2 _ Hio).
    unfold leveldb.contents. rewrite Hd1. reflexivity.
Qed.

(** ** The further properties at concrete inputs *)

Lemma codec_id_roundtrip_witness :
  length (idToKey MaxUint64) = 8%nat /\
  (forall w, keyToID (idToKey MaxUint64) w = Returns (MaxUint64, w)) /\
  (forall id', 0 <= id' <= MaxUint64 ->
               idToKey id' = idToKey MaxUint64 -> id' = MaxUint64).
Proof. apply (codec_id_roundtrip MaxUint64). in_range. Defined.

Lemma codec_key_roundtrip_witness :
  exists id,
    0 <= id <= MaxUint64 /\
    (forall w,
       keyToID [Byte.xff; Byte.x00; Byte.x01; Byte.x02;
                Byte.x03; Byte.x04; Byte.x05; Byte.x06] w = Returns (id, w)) /\
    idToKey id = [Byte.xff; Byte.x00; Byte.x01; Byte.x02;
                  Byte.x03; Byte.x04; Byte.x05; Byte.x06].
Proof. apply codec_key_roundtrip. reflexivity. Defined.

Lemma idToKey_order_witness :
  bytes_le (idToKey 255) (idToKey 256) <-> 255 <= 256.
Proof. apply (idToKey_order 255 256); in_range. Defined.

Lemma enqueue_write_failure_witness :
  enqueue 5 (open_queue 0 0) payload_a failing_world =
    Returns ((open_queue 0 0, Some (ErrIO "I/O error")), mkWorld ∅ []).
Proof.
  apply (enqueue_write_failure 5 (open_queue 0 0) payload_a failing_world
           "q" "I/O error" []).
  - lia.
  - reflexivity.
  - reflexivity.
  - vm_compute. discriminate.
  - reflexivity.
Defined.


Lemma lookup_after_enqueue_witness :
  exists q' w',
    enqueue 5 (open_queue 0 0) payload_a quiet_world = Returns ((q', None), w') /\
    head q' = head (open_queue 0 0) /\
    tail q' = (tail (open_queue 0 0) + 1) mod 5 /\
    getValueByID 5 q' (tail q') w' = Returns ((payload_a, None), w').
Proof.
  apply (lookup_after_enqueue 5 (open_queue 0 0) payload_a quiet_world "q").
  - in_range.
  - split; reflexivity.
  - reflexivity.
  - split; simpl; lia.
  - vm_compute. discriminate.
Defined.

Lemma restart_entry_3 :
  leveldb.contents "q" restart_world !!
    idToKey ((head (open_queue 2 4) + 1) mod 5) = Some payload_a.
Proof.
  rewrite restart_contents.
  change ((head (open_queue 2 4) + 1) mod 5) with 3.
  apply lookup_insert_eq.
Qed.

Lemma lookup_after_dequeue_witness :
  exists q' w',
    dequeue 5 (open_queue 2 4) restart_world = Returns ((q', payload_a, None), w') /\
    head q' = (head (open_queue 2 4) + 1) mod 5 /\
    tail q' = tail (open_queue 2 4) /\
    leveldb.contents "q" w' !! idToKey (head q') = None /\
    getValueByID 5 q' (head q') w' =
      Returns (([], Some (if head q' =? tail q'
                          then ErrEmpty else ErrOutOfBounds)), w').
Proof.
  apply (lookup_after_dequeue 5 (open_queue 2 4) payload_a restart_world "q").
  - in_range.
  - split; reflexivity.
  - reflexivity.
  - split; simpl; lia.
  - simpl. lia.
  - apply restart_entry_3.
Defined.

Lemma queue_refines_fifo_witness :
  exists q0 w0 q' w',
    OpenQueue "q" quiet_world = Returns ((q0, None), w0) /\
    run_trace 2 q0 [Enq payload_a; Enq payload_b; Deq; Deq; Enq payload_c; Deq]
              w0 =
      Returns ((q', snd (fifo_run (2 - 1) []
                           [Enq payload_a; Enq payload_b; Deq; Deq;
                            Enq payload_c; Deq])), w').
Proof.
  apply (queue_refines_fifo 2 "q" quiet_world).
  - in_range.
  - apply contents_nothing.
  - reflexivity.
Defined.



Lemma open_failure_witness :
  let q := mkQueue "q" None 0 0 false in
  OpenQueue "q" failing_world =
    Returns ((q, Some (ErrIO "I/O error")), mkWorld (disk failing_world) []) /\
  forall (v : bytes) (w2 : World),
    enqueue 5 q v w2 = Returns ((q, Some ErrDBClosed), w2) /\
    dequeue 5 q w2 = Returns ((q, [], Some ErrDBClosed), w2) /\
    Close q w2 = Returns ((q, None), w2) /\
    Length 5 q w2 = Returns (0, w2).
Proof.
  apply (open_failure 5 "q" failing_world "I/O error" []).
  - in_range.
  - reflexivity.
Defined.

Lemma drop_outcomes_witness :
  exists w',
    Drop (open_queue 1 3) restart_world =
      Returns ((mkQueue "q" (Some (leveldb.mkDB "q" true)) 0 0 false, None), w') /\
    disk w' = delete "q" (disk restart_world).
Proof.
  apply (proj2 (proj2 (drop_outcomes (open_queue 1 3) restart_world "q"
                         eq_refl eq_refl)) []).
  left. reflexivity.
Defined.

Lemma DequeueObject_decode_failure_witness :
  exists q' w',
    DequeueObject 5 bytes bad_decode (open_queue 2 4) [] restart_world =
      Returns ((q', [], Some (ErrIO "gob: bad data")), w') /\
    head q' = (head (open_queue 2 4) + 1) mod 5 /\
    leveldb.contents "q" w' !!
      idToKey ((head (open_queue 2 4) + 1) mod 5) = None.
Proof.
  apply (DequeueObject_decode_failure 5 bytes bad_decode (open_queue 2 4)
           [] [] payload_a (ErrIO "gob: bad data") restart_world "q").
  - in_range.
  - split; reflexivity.
  - reflexivity.
  - split; simpl; lia.
  - simpl. lia.
  - apply restart_entry_3.
  - reflexivity.
Defined.

Lemma object_roundtrip_witness :
  exists q0 w0 q1 w1 q2 w2,
    OpenQueue "q" quiet_world = Returns ((q0, None), w0) /\
    EnqueueObject 5 bytes raw_encode q0 payload_a w0 = Returns ((q1, None), w1) /\
    DequeueObject 5 bytes raw_decode q1 [] w1 =
      Returns ((q2, payload_a, None), w2).
Proof.
  apply (object_roundtrip 5 bytes raw_encode raw_decode "q" quiet_world
           payload_a [] payload_a).
  - in_range.
  - apply contents_nothing.
  - reflexivity.
  - reflexivity.
  - reflexivity.
Defined.
